(** * Huffman compression (Huffman.py): a shallow embedding and its properties

    The development follows the class [HuffmanCode] of [src/Huffman.py]:
    the frequency table, the construction of the code table by textual
    placeholders ([alpha0__], [alpha1__], ...), the header, [Encode] and
    [Decode].

    Python values are modelled as follows.
    - [str]: a list of characters ([list ascii]); slices [s[a:b]] are
      [firstn]/[skipn], which truncate silently as Python slices do.
    - [dict]: an association list in insertion order (what a Python dict
      iterates in); assigning to a present key keeps its position.
    - [int]: [Z]; [float]: the kernel's binary64 floats ([PrimFloat]), which
      is what Python floats are.
    - exceptions: the [Err] branch of [result], one constructor per Python
      exception the code can raise.
    - the object [self]: the record [HuffmanCode]; methods that assign
      attributes return the updated record. *)

From Stdlib Require Import Ascii String ZArith Arith Lia Bool.
From Stdlib Require Import Floats Uint63 Decimal DecimalNat DecimalString.
From Stdlib.Strings Require Import Byte.
From Stdlib Require Import List Permutation.
Import ListNotations.

(** ** Python strings *)

Definition str := list ascii.

Definition lit (s : string) : str := list_ascii_of_string s.

Fixpoint str_eqb (a b : str) : bool :=
  match a, b with
  | [], [] => true
  | x :: a', y :: b' => Ascii.eqb x y && str_eqb a' b'
  | _, _ => false
  end.

(** [s[a:b]] for [0 <= a <= b]. *)
Definition slice (a b : nat) (s : str) : str := firstn (b - a) (skipn a s).

(** [s[:-n]] for [n > 0]. *)
Definition drop_last (n : nat) (s : str) : str := firstn (length s - n) s.

(** [c * n] for a one-character string [c]. *)
Definition str_repeat (c : ascii) (n : nat) : str := repeat c n.

(** ** Exceptions *)

Inductive exn : Type :=
| IndexError        (* list index out of range *)
| KeyError          (* missing dict key *)
| CreationError     (* bitstring: value does not fit / bad binary string *)
| InterpretError    (* bitstring: empty bitstring read as an integer *)
| AssertionError
| OutOfFuel.        (* no Python exception: the bound of a loop of this
                       model was reached; never returned, see
                       [create_encoder_dictionary_fuel] *)

Inductive result (A : Type) : Type :=
| Ok (a : A)
| Err (e : exn).
Arguments Ok {A} a.
Arguments Err {A} e.

Definition bind {A B} (r : result A) (f : A -> result B) : result B :=
  match r with
  | Ok a => f a
  | Err e => Err e
  end.

Notation "'do' x <- c ; k" := (bind c (fun x => k))
  (at level 10, x name, c at level 100, k at level 200).

(** ** Python dicts with string keys, in insertion order *)

Definition dict (V : Type) := list (str * V).

Fixpoint dict_get {V} (d : dict V) (k : str) : option V :=
  match d with
  | [] => None
  | (k', v) :: d' => if str_eqb k' k then Some v else dict_get d' k
  end.

(** [d[k] = v] *)
Fixpoint dict_set {V} (d : dict V) (k : str) (v : V) : dict V :=
  match d with
  | [] => [(k, v)]
  | (k', v') :: d' =>
      if str_eqb k' k then (k', v) :: d' else (k', v') :: dict_set d' k v
  end.

Definition dict_keys {V} (d : dict V) : list str := map fst d.

(** [k in d] *)
Definition dict_mem {V} (d : dict V) (k : str) : bool :=
  match dict_get d k with Some _ => true | None => false end.

(** [d[k]] as an expression: [KeyError] on a missing key. *)
Definition dict_at {V} (d : dict V) (k : str) : result V :=
  match dict_get d k with Some v => Ok v | None => Err KeyError end.

(** [l[i]] as an expression: [IndexError] out of range. *)
Definition list_at {A} (l : list A) (i : nat) : result A :=
  match nth_error l i with Some x => Ok x | None => Err IndexError end.

(** ** The bitstring library, as far as the code uses it *)

Definition bit_char (b : bool) : ascii :=
  if b then "1"%char else "0"%char.

(** The eight binary digits of [n], most significant first. *)
Definition bits8 (n : Z) : str :=
  map (fun i => bit_char (Z.testbit n i)) [7; 6; 5; 4; 3; 2; 1; 0]%Z.

(** [BitArray(byte).bin] for one byte read from a file. *)
Definition byte_bin (b : byte) : str := bits8 (Z.of_N (Byte.to_N b)).

(** [BitArray(uint = n, length = 8).bin]: the library raises [CreationError]
    when [n] is negative or does not fit in 8 bits. *)
Definition uint8_bin (n : Z) : result str :=
  if ((0 <=? n) && (n <? 256))%Z then Ok (bits8 n) else Err CreationError.

Definition bit_value (c : ascii) : option Z :=
  if Ascii.eqb c "0"%char then Some 0%Z
  else if Ascii.eqb c "1"%char then Some 1%Z
  else None.

Fixpoint bin_value (acc : Z) (s : str) : result Z :=
  match s with
  | [] => Ok acc
  | c :: s' =>
      match bit_value c with
      | Some b => bin_value (2 * acc + b)%Z s'
      | None => Err CreationError
      end
  end.

(** [BitArray(bin = s).uint] for a string of the characters 0 and 1, which
    is what the code passes: the library raises [InterpretError] on the
    empty bitstring. Any other character is refused here with
    [CreationError]. *)
Definition bin_uint (s : str) : result Z :=
  do v <- bin_value 0 s ;
  match s with
  | [] => Err InterpretError
  | _ :: _ => Ok v
  end.

(** ** The instance *)

(** [f'alpha{i}__'] *)
Definition alpha_name (i : nat) : str :=
  lit "alpha" ++ lit (NilEmpty.string_of_uint (Nat.to_uint i)) ++ lit "__".

Definition freq_table := list (float * str).

(** The attributes of a [HuffmanCode] object. [__init__] sets [codesnames]
    (and the pattern [pat], which is the constant ['(alpha\d+__)'] matched by
    [re_match_pat] below); the other attributes exist only after [Encode]
    has assigned them. *)
Record HuffmanCode : Type := {
  codesnames : list str;
  orig_encoded_string : option str;
  freqs : option freq_table;
  encoder_dict : option (dict str);
  bitlist : option (list str);
  encoded_string : option str
}.

Definition init : HuffmanCode := {|
  codesnames := map alpha_name (seq 0 256);
  orig_encoded_string := None;
  freqs := None;
  encoder_dict := None;
  bitlist := None;
  encoded_string := None
|}.

(** ** [read_bytes] *)

(** The file is given by its content, the list of its bytes. *)
Definition read_bytes (file : list byte) : list str := map byte_bin file.

(** ** [make_frequency_tuples] *)

Definition count_symbols (binary_list : list str) : dict Z :=
  fold_left
    (fun counts x =>
       dict_set counts x
         ((match dict_get counts x with Some c => c | None => 0 end) + 1)%Z)
    binary_list [].

(** [a / b] on Python ints: the correctly rounded quotient, which is the
    float quotient of the converted operands while both are below 2^53. *)
Definition int_truediv (a b : Z) : float :=
  PrimFloat.div (PrimFloat.of_uint63 (Uint63.of_Z a))
                (PrimFloat.of_uint63 (Uint63.of_Z b)).

(** [l.sort(key = operator.itemgetter(0), reverse = True)]: the stable
    descending sort on the first component, here by insertion. *)
Fixpoint insert_desc (x : float * str) (l : freq_table) : freq_table :=
  match l with
  | [] => [x]
  | y :: l' =>
      if PrimFloat.ltb (fst x) (fst y) then y :: insert_desc x l'
      else x :: y :: l'
  end.

Definition sort_desc (l : freq_table) : freq_table :=
  fold_right insert_desc [] l.

Definition make_frequency_tuples (binary_list : list str) : freq_table :=
  let counts := count_symbols binary_list in
  let freqs := map (fun kv => (snd kv, fst kv)) counts in
  let total_elements := fold_left Z.add (map fst freqs) 0%Z in
  let freqs := map (fun i => (int_truediv (fst i) total_elements, snd i)) freqs in
  sort_desc freqs.

(** ** The regular expression [pat = '(alpha\d+__)'] *)

Definition is_digit (c : ascii) : bool :=
  (48 <=? nat_of_ascii c) && (nat_of_ascii c <=? 57).

Fixpoint strip_prefix (p s : str) : option str :=
  match p with
  | [] => Some s
  | c :: p' =>
      match s with
      | [] => None
      | d :: s' => if Ascii.eqb c d then strip_prefix p' s' else None
      end
  end.

Fixpoint span_digits (s : str) : str * str :=
  match s with
  | [] => ([], [])
  | c :: s' =>
      if is_digit c then
        let (ds, r) := span_digits s' in (c :: ds, r)
      else ([], s)
  end.

(** [re.match(pat, s)]: [Some g] with [g = match.group(1)] when [s] starts
    with [alpha], one or more digits and two underscores. *)
Definition re_match_pat (s : str) : option str :=
  match strip_prefix (lit "alpha") s with
  | None => None
  | Some r =>
      let (ds, r') := span_digits r in
      match ds, strip_prefix (lit "__") r' with
      | _ :: _, Some _ => Some (lit "alpha" ++ ds ++ lit "__")
      | _, _ => None
      end
  end.

(** [re.sub(pat, repl, s)]: every occurrence of the pattern in [s], left to
    right, is replaced by [repl]. [skip] counts the characters of the
    current occurrence still to be passed over. The replacement strings of
    this program hold no backslash, so [repl] is inserted as it is. *)
Fixpoint re_sub_from (skip : nat) (repl s : str) : str :=
  match s with
  | [] => []
  | c :: s' =>
      match skip with
      | S k => re_sub_from k repl s'
      | O =>
          match re_match_pat s with
          | Some g => repl ++ re_sub_from (length g - 1) repl s'
          | None => c :: re_sub_from 0 repl s'
          end
      end
  end.

Definition re_sub_pat (repl s : str) : str := re_sub_from 0 repl s.

(** ** [update_dictionary] *)

(** One turn of [for i in cd]: the dict is updated in place, so later turns
    see the values written by earlier ones. *)
Definition update_entry (cd : dict str) (i : str) : dict str :=
  match dict_get cd i with
  | None => cd
  | Some v =>
      match re_match_pat v with
      | None => cd
      | Some g =>
          match dict_get cd g with
          | None => cd
          | Some r => dict_set cd i (re_sub_pat r v)
          end
      end
  end.

Definition update_dictionary (cd : dict str) : dict str :=
  fold_left update_entry (dict_keys cd) cd.

(** ** [create_encoder_dictionary] *)

Record builder : Type := {
  b_freqs : freq_table;
  b_codes : dict str;
  b_ptr : nat
}.

(** The body of [while len(freqs) > 2]. *)
Definition merge_step (self : HuffmanCode) (st : builder) : result builder :=
  let fr := b_freqs st in
  let last := skipn (length fr - 2) fr in
  let top := firstn (length fr - 2) fr in
  do l0 <- list_at last 0 ;
  do l1 <- list_at last 1 ;
  let new_freq := PrimFloat.add (fst l0) (fst l1) in
  do name <- list_at (codesnames self) (b_ptr st) ;
  let codes := dict_set (b_codes st) (snd l0) (name ++ lit "0") in
  let codes := dict_set codes (snd l1) (name ++ lit "1") in
  let fr := sort_desc (top ++ [(new_freq, name)]) in
  let codes := update_dictionary codes in
  Ok {| b_freqs := fr; b_codes := codes; b_ptr := S (b_ptr st) |}.

(** [while len(freqs) > 2]. Every turn shortens [freqs] by one, so
    [fuel = len(freqs)] turns are enough: the branch [OutOfFuel] is never
    reached (lemma [merge_loop_fuel]). *)
Fixpoint merge_loop (self : HuffmanCode) (fuel : nat) (st : builder)
  : result builder :=
  if 2 <? length (b_freqs st) then
    match fuel with
    | O => Err OutOfFuel
    | S fuel' => do st' <- merge_step self st ; merge_loop self fuel' st'
    end
  else Ok st.

(** [for i in codes: if not re.match(pat, i): final_codes[i] = codes[i]] *)
Definition strip_placeholders (codes : dict str) : dict str :=
  fold_left
    (fun final_codes i =>
       match re_match_pat i with
       | Some _ => final_codes
       | None =>
           match dict_get codes i with
           | Some v => dict_set final_codes i v
           | None => final_codes
           end
       end)
    (dict_keys codes) [].

Definition create_encoder_dictionary (self : HuffmanCode) (fr : freq_table)
  : result (dict str) :=
  do st <- merge_loop self (length fr)
             {| b_freqs := fr; b_codes := []; b_ptr := 0 |} ;
  do f0 <- list_at (b_freqs st) 0 ;
  let codes := dict_set (b_codes st) (snd f0) (lit "0") in
  do f1 <- list_at (b_freqs st) 1 ;
  let codes := dict_set codes (snd f1) (lit "1") in
  let codes := update_dictionary codes in
  Ok (strip_placeholders codes).

(** ** [make_header] *)

Fixpoint header_entries (encoder_dict : dict str) : result str :=
  match encoder_dict with
  | [] => Ok []
  | (i, code) :: rest =>
      do n_bits <- uint8_bin (Z.of_nat (length code)) ;
      do tl <- header_entries rest ;
      Ok (i ++ n_bits ++ code ++ tl)
  end.

Definition make_header (bin_string : str) (encoder_dict : dict str)
  : result str :=
  do n_symbols <- uint8_bin (Z.of_nat (length encoder_dict) - 1) ;
  do entries <- header_entries encoder_dict ;
  Ok (n_symbols ++ entries).

(** ** [Encode] *)

Fixpoint encode_symbols (encoder_dict : dict str) (bitlist : list str)
  : result str :=
  match bitlist with
  | [] => Ok []
  | i :: rest =>
      do c <- dict_at encoder_dict i ;
      do tl <- encode_symbols encoder_dict rest ;
      Ok (c ++ tl)
  end.

Definition Encode (self : HuffmanCode) (file : list byte)
  : result (str * HuffmanCode) :=
  let bitlist := read_bytes file in
  let freqs := make_frequency_tuples bitlist in
  do encoder_dict <- create_encoder_dictionary self freqs ;
  do orig_encoded_string <- encode_symbols encoder_dict bitlist ;
  do header <- make_header orig_encoded_string encoder_dict ;
  let encoded_string := header ++ orig_encoded_string in
  let n_pad := 8 - length encoded_string mod 8 in
  do pad_byte <- uint8_bin (Z.of_nat n_pad) ;
  let encoded_string := pad_byte ++ encoded_string ++ str_repeat "0"%char n_pad in
  if length encoded_string mod 8 =? 0 then
    Ok (encoded_string,
        {| codesnames := codesnames self;
           orig_encoded_string := Some orig_encoded_string;
           freqs := Some freqs;
           encoder_dict := Some encoder_dict;
           bitlist := Some bitlist;
           encoded_string := Some encoded_string |})
  else Err AssertionError.

(** ** [Decode] *)

Record header_state : Type := {
  h_code2symb : dict str;
  h_head : str;
  h_bin : str      (* bin_to_decompress *)
}.

(** The body of [for _ in range(n_symb)]. *)
Definition parse_entry (st : header_state) : result header_state :=
  let b := h_bin st in
  let symb := slice 0 8 b in
  do n_bits <- bin_uint (slice 8 16 b) ;
  let n_bits := Z.to_nat n_bits in
  let code := slice 16 (16 + n_bits) b in
  Ok {| h_code2symb := dict_set (h_code2symb st) code symb;
        h_head := h_head st ++ firstn (16 + n_bits) b;
        h_bin := skipn (16 + n_bits) b |}.

Fixpoint parse_entries (n : nat) (st : header_state) : result header_state :=
  match n with
  | O => Ok st
  | S n' => do st' <- parse_entry st ; parse_entries n' st'
  end.

(** Lines 151 to 164 of [Decode]: the padding count and the state after the
    header loop. *)
Definition parse_header (encoded_bin_string : str)
  : result (Z * header_state) :=
  do n_pad <- bin_uint (slice 0 8 encoded_bin_string) ;
  do n_symb0 <- bin_uint (slice 8 16 encoded_bin_string) ;
  let n_symb := (n_symb0 + 1)%Z in
  do st <- parse_entries (Z.to_nat n_symb)
             {| h_code2symb := [];
                h_head := firstn 16 encoded_bin_string;
                h_bin := skipn 16 encoded_bin_string |} ;
  Ok (n_pad, st).

(** One turn of [for i in bin_to_decompress], on the pair
    [(symb_being_decoded, decoded_string)]. *)
Definition scan_bit (code2symb : dict str) (st : str * str) (i : ascii)
  : str * str :=
  let symb_being_decoded := fst st ++ [i] in
  match dict_get code2symb symb_being_decoded with
  | Some s => ([], snd st ++ s)
  | None => (symb_being_decoded, snd st)
  end.

Definition scan_bits (code2symb : dict str) (bits : str) : str * str :=
  fold_left (scan_bit code2symb) bits ([], []).

(** Lines 165 and 166: [if n_pad > 0: b = b[:-n_pad]]. *)
Definition remove_padding (n_pad : Z) (bin_to_decompress : str) : str :=
  if (0 <? n_pad)%Z then drop_last (Z.to_nat n_pad) bin_to_decompress
  else bin_to_decompress.

(** [Decode] up to the end of the scan loop: the pair
    [(symb_being_decoded, decoded_string)] the loop ends with. *)
Definition Decode_scan (encoded_bin_string : str) : result (str * str) :=
  do ph <- parse_header encoded_bin_string ;
  let n_pad := fst ph in
  let bin_to_decompress := h_bin (snd ph) in
  let bin_to_decompress := remove_padding n_pad bin_to_decompress in
  Ok (scan_bits (h_code2symb (snd ph)) bin_to_decompress).

(** Line 176 returns [decoded_string], whatever is left in
    [symb_being_decoded]. *)
Definition Decode (encoded_bin_string : str) : result str :=
  do st <- Decode_scan encoded_bin_string ;
  Ok (snd st).

(** * Properties *)

(** ** Strings and dicts *)

Lemma str_eqb_eq (a b : str) : str_eqb a b = true <-> a = b.
Proof.
  revert b; induction a as [|x a IH]; intros [|y b]; simpl;
    try (split; [discriminate | congruence]); try tauto.
  rewrite andb_true_iff, Ascii.eqb_eq, IH.
  split; [intros [-> ->]; reflexivity | intros H; inversion H; auto].
Qed.

Lemma str_eqb_refl (a : str) : str_eqb a a = true.
Proof. apply str_eqb_eq; reflexivity. Qed.

Lemma str_eqb_neq (a b : str) : str_eqb a b = false <-> a <> b.
Proof.
  rewrite <- str_eqb_eq. destruct (str_eqb a b); split; congruence.
Qed.

Lemma str_eqb_sym (a b : str) : str_eqb a b = str_eqb b a.
Proof.
  destruct (str_eqb b a) eqn:E.
  - apply str_eqb_eq in E; subst; apply str_eqb_refl.
  - apply str_eqb_neq in E. apply str_eqb_neq; congruence.
Qed.

Ltac str_cases a b :=
  let E := fresh "E" in
  destruct (str_eqb a b) eqn:E;
  [apply str_eqb_eq in E | apply str_eqb_neq in E].

Section Dict.
Context {V : Type}.
Implicit Types (d : dict V) (k : str) (v : V).

Lemma dict_get_None d k : dict_get d k = None <-> ~ In k (dict_keys d).
Proof.
  induction d as [|[k' v'] d IH]; simpl; [tauto|].
  str_cases k' k.
  - split; [discriminate | intros H; exfalso; auto].
  - rewrite IH; tauto.
Qed.

Lemma dict_get_Some_In d k v : dict_get d k = Some v -> In (k, v) d.
Proof.
  induction d as [|[k' v'] d IH]; simpl; [discriminate|].
  str_cases k' k; [intros [= ->]; subst; auto | auto].
Qed.

Lemma dict_get_In_keys d k v : dict_get d k = Some v -> In k (dict_keys d).
Proof. intros H. apply dict_get_Some_In in H. apply (in_map fst) in H. exact H. Qed.

Lemma In_dict_get d k v :
  NoDup (dict_keys d) -> In (k, v) d -> dict_get d k = Some v.
Proof.
  induction d as [|[k' v'] d IH]; simpl; [tauto|].
  intros ND [[= -> ->]|H].
  - now rewrite str_eqb_refl.
  - inversion ND as [|? ? Hn ND']; subst.
    str_cases k' k; [|auto].
    subst. exfalso. apply Hn. apply (in_map fst) in H. exact H.
Qed.

Lemma dict_get_app d1 d2 k :
  dict_get (d1 ++ d2) k =
  match dict_get d1 k with Some v => Some v | None => dict_get d2 k end.
Proof.
  induction d1 as [|[k' v'] d1 IH]; simpl; [reflexivity|].
  destruct (str_eqb k' k); auto.
Qed.

Lemma dict_set_fresh d k v :
  ~ In k (dict_keys d) -> dict_set d k v = d ++ [(k, v)].
Proof.
  induction d as [|[k' v'] d IH]; simpl; [reflexivity|].
  intros H. str_cases k' k; [exfalso; auto|].
  rewrite IH; tauto.
Qed.

Lemma dict_set_middle d1 d2 k v v' :
  ~ In k (dict_keys d1) ->
  dict_set (d1 ++ (k, v) :: d2) k v' = d1 ++ (k, v') :: d2.
Proof.
  induction d1 as [|[k1 v1] d1 IH]; simpl.
  - now rewrite str_eqb_refl.
  - intros H. str_cases k1 k; [exfalso; auto|].
    rewrite IH; tauto.
Qed.

Lemma dict_get_set_same d k v : dict_get (dict_set d k v) k = Some v.
Proof.
  induction d as [|[k' v'] d IH]; simpl.
  - now rewrite str_eqb_refl.
  - destruct (str_eqb k' k) eqn:E; simpl; rewrite E; auto.
Qed.

Lemma dict_get_set_other d k k' v :
  k <> k' -> dict_get (dict_set d k v) k' = dict_get d k'.
Proof.
  intros Hn. induction d as [|[k0 v0] d IH]; simpl.
  - apply str_eqb_neq in Hn. now rewrite Hn.
  - str_cases k0 k; simpl.
    + subst. apply str_eqb_neq in Hn. now rewrite Hn.
    + destruct (str_eqb k0 k'); auto.
Qed.

Lemma dict_keys_set_present d k v :
  In k (dict_keys d) -> dict_keys (dict_set d k v) = dict_keys d.
Proof.
  induction d as [|[k' v'] d IH]; simpl; [tauto|].
  intros H. str_cases k' k; simpl; [reflexivity|].
  f_equal. apply IH. destruct H; congruence.
Qed.

Lemma dict_keys_app d1 d2 : dict_keys (d1 ++ d2) = dict_keys d1 ++ dict_keys d2.
Proof. apply map_app. Qed.

End Dict.

Lemma dict_get_map_values {V W} (f : V -> W) (d : dict V) k :
  dict_get (map (fun kv => (fst kv, f (snd kv))) d) k =
  option_map f (dict_get d k).
Proof.
  induction d as [|[k' v'] d IH]; simpl; [reflexivity|].
  destruct (str_eqb k' k); auto.
Qed.

Lemma dict_keys_map_values {V W} (f : V -> W) (d : dict V) :
  dict_keys (map (fun kv => (fst kv, f (snd kv))) d) = dict_keys d.
Proof.
  unfold dict_keys. rewrite map_map. reflexivity.
Qed.

(** ** The pattern on the strings the builder produces *)

(** Strings of the characters 0 and 1. *)
Definition is_bits (s : str) : Prop :=
  Forall (fun c => c = "0"%char \/ c = "1"%char) s.

(** [f'{i}'] *)
Definition decimal (i : nat) : str :=
  lit (NilEmpty.string_of_uint (Nat.to_uint i)).

Lemma alpha_name_eq i : alpha_name i = lit "alpha" ++ decimal i ++ lit "__".
Proof. reflexivity. Qed.

Lemma uint_digits (d : uint) :
  Forall (fun c => is_digit c = true) (lit (NilEmpty.string_of_uint d)).
Proof.
  induction d; simpl; constructor; auto.
Qed.

Lemma decimal_digits i : Forall (fun c => is_digit c = true) (decimal i).
Proof. apply uint_digits. Qed.

Lemma lit_inj (s t : string) : lit s = lit t -> s = t.
Proof.
  intros H. apply (f_equal string_of_list_ascii) in H.
  unfold lit in H. now rewrite !string_of_list_ascii_of_string in H.
Qed.

Lemma decimal_inj i j : decimal i = decimal j -> i = j.
Proof.
  intros H. apply lit_inj in H.
  apply (f_equal NilEmpty.uint_of_string) in H.
  rewrite !NilEmpty.usu in H. injection H as H.
  now apply Unsigned.to_uint_inj.
Qed.

Lemma decimal_nonempty i : decimal i <> [].
Proof.
  intros H. change (@nil ascii) with (lit EmptyString) in H. unfold decimal in H.
  apply lit_inj in H.
  apply (f_equal NilEmpty.uint_of_string) in H.
  rewrite NilEmpty.usu in H. simpl in H. injection H as H.
  pose proof (f_equal Nat.of_uint H) as H0.
  rewrite Unsigned.of_to in H0. simpl in H0.
  subst i. discriminate.
Qed.

Lemma alpha_name_inj i j : alpha_name i = alpha_name j -> i = j.
Proof.
  rewrite !alpha_name_eq. intros H.
  apply app_inv_head in H. apply app_inv_tail in H.
  now apply decimal_inj.
Qed.

Lemma span_digits_stop (ds rest : str) :
  Forall (fun c => is_digit c = true) ds ->
  span_digits (ds ++ "_"%char :: rest) = (ds, "_"%char :: rest).
Proof.
  induction 1 as [|c ds Hc _ IH]; simpl; [reflexivity|].
  now rewrite Hc, IH.
Qed.

Lemma re_match_alpha i (rest : str) :
  re_match_pat (alpha_name i ++ rest) = Some (alpha_name i).
Proof.
  rewrite alpha_name_eq. unfold re_match_pat.
  rewrite <- !app_assoc. simpl.
  rewrite (span_digits_stop _ _ (decimal_digits i)).
  destruct (decimal i) eqn:E; [now apply decimal_nonempty in E|].
  reflexivity.
Qed.

Lemma re_match_alpha_name i : re_match_pat (alpha_name i) = Some (alpha_name i).
Proof.
  rewrite <- (app_nil_r (alpha_name i)) at 1. apply re_match_alpha.
Qed.

Lemma re_match_nil : re_match_pat [] = None.
Proof. reflexivity. Qed.

Lemma re_match_other c (s : str) :
  c <> "a"%char -> re_match_pat (c :: s) = None.
Proof.
  intros H. unfold re_match_pat.
  change (lit "alpha") with ("a"%char :: lit "lpha"). cbn [strip_prefix].
  destruct (Ascii.eqb_spec "a"%char c); [congruence | reflexivity].
Qed.

Lemma re_match_bits (s : str) : is_bits s -> re_match_pat s = None.
Proof.
  intros [|c s' [-> | ->] _]; [reflexivity| |]; now apply re_match_other.
Qed.

Lemma re_sub_bits (repl s : str) : is_bits s -> re_sub_pat repl s = s.
Proof.
  unfold re_sub_pat. induction 1 as [|c s Hc Hs IH]; [reflexivity|].
  cbn [re_sub_from].
  rewrite re_match_bits by (constructor; assumption).
  now rewrite IH.
Qed.

Lemma re_sub_from_skip (p repl s : str) :
  re_sub_from (length p) repl (p ++ s) = re_sub_from 0 repl s.
Proof. induction p; simpl; auto. Qed.

Lemma alpha_name_cons i : exists p, alpha_name i = "a"%char :: p.
Proof. rewrite alpha_name_eq. simpl. eauto. Qed.

Lemma re_sub_alpha i (repl bits : str) :
  is_bits bits -> re_sub_pat repl (alpha_name i ++ bits) = repl ++ bits.
Proof.
  intros Hb. unfold re_sub_pat.
  destruct (alpha_name_cons i) as [p Hp].
  pose proof (re_match_alpha i bits) as Hm. rewrite Hp in *.
  cbn [app re_sub_from]. cbn [app] in Hm. rewrite Hm.
  cbn [length]. rewrite Nat.sub_1_r. cbn [Nat.pred].
  rewrite re_sub_from_skip. f_equal. now apply re_sub_bits.
Qed.

Lemma is_bits_app (a b : str) : is_bits a -> is_bits b -> is_bits (a ++ b).
Proof. intros; apply Forall_app; auto. Qed.

Lemma is_bits_lit0 : is_bits (lit "0").
Proof. repeat constructor. Qed.

Lemma is_bits_lit1 : is_bits (lit "1").
Proof. constructor; [right; reflexivity | constructor]. Qed.

Lemma alpha_not_bits i : ~ is_bits (alpha_name i).
Proof.
  intros H. apply re_match_bits in H. rewrite re_match_alpha_name in H.
  discriminate.
Qed.

(** ** [update_dictionary] as one simultaneous substitution *)

(** What one turn of the loop of [update_dictionary] writes for a value [v],
    read against the dict [cd]. *)
Definition subst1 (cd : dict str) (v : str) : str :=
  match re_match_pat v with
  | Some g =>
      match dict_get cd g with
      | Some r => re_sub_pat r v
      | None => v
      end
  | None => v
  end.

Definition subst_entry (cd : dict str) (kv : str * str) : str * str :=
  (fst kv, subst1 cd (snd kv)).

(** The values that are substituted for a placeholder are themselves left
    alone by the pass: then the order of the turns does not matter. *)
Definition replacements_fixed (cd : dict str) : Prop :=
  forall k v g r,
    In (k, v) cd -> re_match_pat v = Some g -> dict_get cd g = Some r ->
    subst1 cd r = r.

Lemma update_entry_step (cd l1 l2 : dict str) k v :
  cd = l1 ++ (k, v) :: l2 ->
  NoDup (dict_keys cd) ->
  replacements_fixed cd ->
  update_entry (map (subst_entry cd) l1 ++ (k, v) :: l2) k =
  map (subst_entry cd) (l1 ++ [(k, v)]) ++ l2.
Proof.
  intros Hcd ND Hfix.
  assert (Hk : ~ In k (dict_keys l1)).
  { rewrite Hcd, dict_keys_app in ND. simpl in ND.
    apply NoDup_remove_2 in ND. intros H; apply ND, in_or_app; auto. }
  assert (Hk' : ~ In k (dict_keys (map (subst_entry cd) l1))).
  { unfold subst_entry. now rewrite dict_keys_map_values. }
  rewrite map_app, <- app_assoc. simpl. unfold subst_entry at 3. simpl.
  unfold update_entry.
  rewrite dict_get_app.
  apply dict_get_None in Hk'. rewrite Hk'. simpl. rewrite str_eqb_refl.
  unfold subst1.
  destruct (re_match_pat v) as [g|] eqn:Hm; [|reflexivity].
  assert (Hg : dict_get (map (subst_entry cd) l1 ++ (k, v) :: l2) g
               = dict_get cd g).
  { rewrite Hcd at 2. rewrite !dict_get_app.
    unfold subst_entry. rewrite dict_get_map_values.
    destruct (dict_get l1 g) as [r|] eqn:Hr; simpl; [|reflexivity].
    f_equal. apply (Hfix k v g r); auto.
    - rewrite Hcd. apply in_or_app; right; left; reflexivity.
    - rewrite Hcd, dict_get_app, Hr. reflexivity. }
  rewrite Hg.
  destruct (dict_get cd g) as [r|]; [|reflexivity].
  apply dict_set_middle. now apply dict_get_None.
Qed.

Lemma update_fold (cd : dict str) :
  NoDup (dict_keys cd) ->
  replacements_fixed cd ->
  forall l2 l1,
    cd = l1 ++ l2 ->
    fold_left update_entry (dict_keys l2) (map (subst_entry cd) l1 ++ l2) =
    map (subst_entry cd) cd.
Proof.
  intros ND Hfix. induction l2 as [|[k v] l2 IH]; intros l1 Hcd.
  - simpl. rewrite Hcd, !app_nil_r. reflexivity.
  - simpl. rewrite (update_entry_step cd l1 l2 k v Hcd ND Hfix).
    apply IH. rewrite Hcd, <- app_assoc. reflexivity.
Qed.

Lemma update_dictionary_map (cd : dict str) :
  NoDup (dict_keys cd) ->
  replacements_fixed cd ->
  update_dictionary cd = map (subst_entry cd) cd.
Proof.
  intros ND Hfix. unfold update_dictionary.
  apply (update_fold cd ND Hfix cd []). reflexivity.
Qed.

(** ** The codes under construction, read as (placeholder, bits) pairs *)

(** While the table is built every value of [codes] is a placeholder
    followed by bits; after the last pass the placeholder part is empty.
    A [shadow] lists, for every key, the two parts of its value. *)
Definition shadow := list (str * (str * str)).

Definition render_entry (e : str * (str * str)) : str * str :=
  (fst e, fst (snd e) ++ snd (snd e)).

Definition render (a : shadow) : dict str := map render_entry a.

Definition shadow_keys (a : shadow) : list str := map fst a.

(** The effect of giving [s0] the value [P ++ '0'] and [s1] the value
    [P ++ '1'] on an entry that hangs below [s0] or [s1]. *)
Definition relabel (s0 s1 P : str) (e : str * (str * str))
  : str * (str * str) :=
  if str_eqb (fst (snd e)) s0 then (fst e, (P, "0"%char :: snd (snd e)))
  else if str_eqb (fst (snd e)) s1 then (fst e, (P, "1"%char :: snd (snd e)))
  else e.

(** Lines 80, 81 and 84 (and 86 to 88, with the empty [P]). *)
Definition assign2 (codes : dict str) (s0 s1 P : str) : dict str :=
  update_dictionary
    (dict_set (dict_set codes s0 (P ++ lit "0")) s1 (P ++ lit "1")).

Definition shadow_wf (a : shadow) : Prop :=
  NoDup (shadow_keys a) /\
  forall k h b, In (k, (h, b)) a ->
    (exists j, h = alpha_name j) /\ is_bits b /\ ~ In h (shadow_keys a).

(** [P] is empty, or a placeholder that is no key yet. *)
Definition fresh_head (a : shadow) (s0 s1 P : str) : Prop :=
  P = [] \/
  ((exists p, P = alpha_name p) /\ ~ In P (shadow_keys a) /\ P <> s0 /\ P <> s1).

Lemma render_keys a : dict_keys (render a) = shadow_keys a.
Proof. unfold dict_keys, render, shadow_keys. rewrite map_map. reflexivity. Qed.

Lemma render_app a b : render (a ++ b) = render a ++ render b.
Proof. apply map_app. Qed.

Lemma shadow_keys_app a b : shadow_keys (a ++ b) = shadow_keys a ++ shadow_keys b.
Proof. apply map_app. Qed.

Lemma relabel_key s0 s1 P e : fst (relabel s0 s1 P e) = fst e.
Proof.
  unfold relabel. destruct (str_eqb _ s0); [reflexivity|].
  destruct (str_eqb _ s1); reflexivity.
Qed.

Lemma shadow_keys_relabel s0 s1 P a :
  shadow_keys (map (relabel s0 s1 P) a) = shadow_keys a.
Proof.
  unfold shadow_keys. rewrite map_map. apply map_ext. apply relabel_key.
Qed.

(** The dict after lines 80 and 81, before the pass of line 84. *)
Definition assigned (a : shadow) (s0 s1 P : str) : dict str :=
  render a ++ [(s0, P ++ lit "0"); (s1, P ++ lit "1")].

Definition assign_pre (a : shadow) (s0 s1 P : str) : Prop :=
  shadow_wf a /\ s0 <> s1 /\
  ~ In s0 (shadow_keys a) /\ ~ In s1 (shadow_keys a) /\
  fresh_head a s0 s1 P.

Lemma assign2_sets a s0 s1 P :
  assign_pre a s0 s1 P ->
  dict_set (dict_set (render a) s0 (P ++ lit "0")) s1 (P ++ lit "1")
  = assigned a s0 s1 P.
Proof.
  intros (Hwf & Hs01 & Hs0 & Hs1 & HP).
  rewrite (dict_set_fresh (render a) s0)
    by (rewrite render_keys; exact Hs0).
  rewrite dict_set_fresh.
  - unfold assigned. rewrite <- app_assoc. reflexivity.
  - rewrite dict_keys_app, render_keys. simpl.
    intros H. apply in_app_or in H. destruct H as [H|[H|[]]]; auto.
Qed.

Lemma assigned_keys a s0 s1 P :
  dict_keys (assigned a s0 s1 P) = shadow_keys a ++ [s0; s1].
Proof. unfold assigned. rewrite dict_keys_app, render_keys. reflexivity. Qed.

Lemma assigned_nodup a s0 s1 P :
  assign_pre a s0 s1 P -> NoDup (dict_keys (assigned a s0 s1 P)).
Proof.
  intros ((ND & _) & Hs01 & Hs0 & Hs1 & HP).
  rewrite assigned_keys.
  apply NoDup_app; [exact ND | | ].
  - constructor; [simpl; intuition congruence
                 | constructor; [simpl; tauto | constructor]].
  - intros x Hx [<-|[<-|[]]]; auto.
Qed.

Lemma assigned_get_head a s0 s1 P h :
  ~ In h (shadow_keys a) ->
  dict_get (assigned a s0 s1 P) h =
  if str_eqb h s0 then Some (P ++ lit "0")
  else if str_eqb h s1 then Some (P ++ lit "1") else None.
Proof.
  intros Hh. unfold assigned. rewrite dict_get_app.
  rewrite <- render_keys in Hh. apply dict_get_None in Hh. rewrite Hh.
  simpl. rewrite (str_eqb_sym s0 h), (str_eqb_sym s1 h). reflexivity.
Qed.

Lemma assigned_new_fixed a s0 s1 P (bit : str) :
  fresh_head a s0 s1 P -> is_bits bit ->
  subst1 (assigned a s0 s1 P) (P ++ bit) = P ++ bit.
Proof.
  intros HP Hb. unfold subst1. destruct HP as [-> | [[p ->] [Hk [H0 H1]]]].
  - simpl. now rewrite re_match_bits.
  - rewrite re_match_alpha, assigned_get_head by exact Hk.
    apply str_eqb_neq in H0, H1. now rewrite H0, H1.
Qed.

Lemma assigned_match_not_key a s0 s1 P k v g :
  assign_pre a s0 s1 P ->
  In (k, v) (assigned a s0 s1 P) -> re_match_pat v = Some g ->
  ~ In g (shadow_keys a).
Proof.
  intros ((_ & Hall) & _ & _ & _ & HP).
  unfold assigned. intros Hin Hm. apply in_app_or in Hin.
  destruct Hin as [Hin | Hin].
  - unfold render in Hin. apply in_map_iff in Hin.
    destruct Hin as [[k' [h b]] [Heq Hin]]. unfold render_entry in Heq.
    simpl in Heq. injection Heq as <- <-.
    destruct (Hall _ _ _ Hin) as [[j ->] [_ Hnk]].
    rewrite re_match_alpha in Hm. injection Hm as <-. exact Hnk.
  - assert (Hv : exists bit, is_bits bit /\ v = P ++ bit).
    { destruct Hin as [[= _ <-]|[[= _ <-]|[]]];
        eauto using is_bits_lit0, is_bits_lit1. }
    destruct Hv as [bit [Hb ->]].
    destruct HP as [-> | [[p ->] [Hk _]]].
    + simpl in Hm. rewrite re_match_bits in Hm by exact Hb. discriminate.
    + rewrite re_match_alpha in Hm. injection Hm as <-. exact Hk.
Qed.

Lemma assigned_fixed a s0 s1 P :
  assign_pre a s0 s1 P -> replacements_fixed (assigned a s0 s1 P).
Proof.
  intros Hpre k v g r Hin Hm Hg.
  pose proof (assigned_match_not_key a s0 s1 P k v g Hpre Hin Hm) as Hnk.
  rewrite (assigned_get_head a s0 s1 P g Hnk) in Hg.
  destruct Hpre as (_ & _ & _ & _ & HP).
  destruct (str_eqb g s0).
  - injection Hg as <-. apply assigned_new_fixed; [exact HP | apply is_bits_lit0].
  - destruct (str_eqb g s1); [|discriminate].
    injection Hg as <-. apply assigned_new_fixed; [exact HP | apply is_bits_lit1].
Qed.

Lemma assigned_old_entry a s0 s1 P e :
  shadow_wf a -> In e a ->
  subst_entry (assigned a s0 s1 P) (render_entry e)
  = render_entry (relabel s0 s1 P e).
Proof.
  destruct e as [k [h b]]. intros [_ Hall] Hin.
  destruct (Hall _ _ _ Hin) as [[j ->] [Hb Hnk]].
  unfold subst_entry, render_entry, relabel, subst1. cbn [fst snd].
  rewrite re_match_alpha, (assigned_get_head _ _ _ _ _ Hnk).
  destruct (str_eqb (alpha_name j) s0).
  - cbn [fst snd]. rewrite re_sub_alpha by exact Hb.
    now rewrite <- app_assoc.
  - destruct (str_eqb (alpha_name j) s1); [|reflexivity].
    cbn [fst snd]. rewrite re_sub_alpha by exact Hb.
    now rewrite <- app_assoc.
Qed.

Lemma assign2_render a s0 s1 P :
  assign_pre a s0 s1 P ->
  assign2 (render a) s0 s1 P =
  render (map (relabel s0 s1 P) a
          ++ [(s0, (P, lit "0")); (s1, (P, lit "1"))]).
Proof.
  intros Hpre. unfold assign2. rewrite (assign2_sets a s0 s1 P Hpre).
  rewrite (update_dictionary_map _ (assigned_nodup _ _ _ _ Hpre)
             (assigned_fixed _ _ _ _ Hpre)).
  destruct Hpre as (Hwf & _ & _ & _ & HP).
  unfold assigned at 2. rewrite map_app, render_app. f_equal.
  - unfold render. rewrite !map_map. apply map_ext_in.
    intros e He. now apply assigned_old_entry.
  - simpl. unfold subst_entry, render_entry. simpl.
    rewrite !assigned_new_fixed by
      (first [exact HP | apply is_bits_lit0 | apply is_bits_lit1]).
    reflexivity.
Qed.

(** ** Prefixes *)

Definition prefix (p s : str) : Prop := exists t, s = p ++ t.

Lemma prefix_cons_inv c1 c2 (b1 b2 : str) :
  prefix (c1 :: b1) (c2 :: b2) -> c1 = c2 /\ prefix b1 b2.
Proof. intros [t Ht]. injection Ht as -> ->. split; [reflexivity | now exists t]. Qed.

Lemma prefix_app_inv (p b1 b2 : str) : prefix (p ++ b1) (p ++ b2) -> prefix b1 b2.
Proof.
  intros [t Ht]. rewrite <- app_assoc in Ht. apply app_inv_head in Ht.
  now exists t.
Qed.

(** A code table is prefix-free when no codeword is a prefix of the codeword
    of another symbol. *)
Definition prefix_free (table : dict str) : Prop :=
  forall k1 v1 k2 v2,
    In (k1, v1) table -> In (k2, v2) table -> k1 <> k2 -> ~ prefix v1 v2.

(** ** One assignment step on the shadow *)

Definition stepped (a : shadow) (s0 s1 P : str) : shadow :=
  map (relabel s0 s1 P) a ++ [(s0, (P, lit "0")); (s1, (P, lit "1"))].

(** Among the entries of real symbols that hang below the same placeholder,
    no bit part is a prefix of another. *)
Definition heads_prefix_free (syms : list str) (a : shadow) : Prop :=
  forall k1 b1 k2 b2 h,
    In (k1, (h, b1)) a -> In (k2, (h, b2)) a -> k1 <> k2 ->
    In k1 syms -> In k2 syms -> ~ prefix b1 b2.

Lemma relabel_cases s0 s1 P k h b k' h' b' :
  relabel s0 s1 P (k, (h, b)) = (k', (h', b')) ->
  k' = k /\
  ((h = s0 /\ h' = P /\ b' = "0"%char :: b) \/
   (h <> s0 /\ h = s1 /\ h' = P /\ b' = "1"%char :: b) \/
   (h <> s0 /\ h <> s1 /\ h' = h /\ b' = b)).
Proof.
  unfold relabel. cbn [fst snd].
  str_cases h s0; [intros [= <- <- <-]; auto|].
  str_cases h s1; intros [= <- <- <-]; auto 10.
Qed.

Lemma stepped_cases a s0 s1 P k h' b' :
  In (k, (h', b')) (stepped a s0 s1 P) ->
  (exists h b, In (k, (h, b)) a /\
     ((h = s0 /\ h' = P /\ b' = "0"%char :: b) \/
      (h <> s0 /\ h = s1 /\ h' = P /\ b' = "1"%char :: b) \/
      (h <> s0 /\ h <> s1 /\ h' = h /\ b' = b))) \/
  (k = s0 /\ h' = P /\ b' = lit "0") \/
  (k = s1 /\ h' = P /\ b' = lit "1").
Proof.
  unfold stepped. intros H. apply in_app_or in H. destruct H as [H|H].
  - left. apply in_map_iff in H. destruct H as [[k0 [h b]] [Heq Hin]].
    apply relabel_cases in Heq. destruct Heq as [-> Hc]. eauto.
  - right. destruct H as [[= <- <- <-]|[[= <- <- <-]|[]]]; auto.
Qed.

Lemma stepped_keys a s0 s1 P :
  shadow_keys (stepped a s0 s1 P) = shadow_keys a ++ [s0; s1].
Proof.
  unfold stepped. rewrite shadow_keys_app, shadow_keys_relabel. reflexivity.
Qed.

Lemma stepped_prefix_free syms a s0 s1 P :
  heads_prefix_free syms a ->
  s0 <> s1 ->
  (forall k h b, In (k, (h, b)) a -> h <> P /\ ~ In h syms) ->
  heads_prefix_free syms (stepped a s0 s1 P).
Proof.
  intros IH Hs01 Hheads k1 b1 k2 b2 h H1 H2 Hne Hk1 Hk2 Hpre.
  apply stepped_cases in H1, H2.
  destruct H1 as [(h1 & c1 & Hin1 & C1) | C1];
    destruct H2 as [(h2 & c2 & Hin2 & C2) | C2].
  - pose proof (Hheads _ _ _ Hin1) as [Hp1 _].
    pose proof (Hheads _ _ _ Hin2) as [Hp2 _].
    destruct C1 as [(-> & -> & ->) | [(? & -> & -> & ->) | (? & ? & -> & ->)]];
      destruct C2 as [(-> & E2 & ->) | [(? & -> & E2 & ->) | (? & ? & E2 & ->)]];
      try congruence;
      try (apply prefix_cons_inv in Hpre; destruct Hpre as [Hc Hpre];
           try discriminate Hc);
      try subst h2;
      exact (IH _ _ _ _ _ Hin1 Hin2 Hne Hk1 Hk2 Hpre).
  - pose proof (Hheads _ _ _ Hin1) as [Hp1 Hs1].
    destruct C1 as [(-> & -> & ->) | [(? & -> & -> & ->) | (? & ? & -> & ->)]];
      destruct C2 as [(-> & E2 & ->) | (-> & E2 & ->)];
      try congruence;
      apply prefix_cons_inv in Hpre; destruct Hpre as [Hc Hpre];
      discriminate Hc.
  - pose proof (Hheads _ _ _ Hin2) as [Hp2 Hs2].
    destruct C2 as [(-> & E2 & ->) | [(? & -> & E2 & ->) | (? & ? & E2 & ->)]];
      destruct C1 as [(-> & -> & ->) | (-> & -> & ->)];
      try congruence;
      apply prefix_cons_inv in Hpre; destruct Hpre as [Hc Hpre];
      discriminate Hc.
  - destruct C1 as [(-> & -> & ->) | (-> & -> & ->)];
      destruct C2 as [(-> & E2 & ->) | (-> & E2 & ->)];
      try congruence;
      apply prefix_cons_inv in Hpre; destruct Hpre as [Hc Hpre];
      discriminate Hc.
Qed.

(** ** The sort keeps the entries *)

Definition names (fr : freq_table) : list str := map snd fr.

Lemma insert_desc_perm x l : Permutation (insert_desc x l) (x :: l).
Proof.
  induction l as [|y l IH]; simpl; [reflexivity|].
  destruct (PrimFloat.ltb (fst x) (fst y)); [|reflexivity].
  rewrite IH. apply perm_swap.
Qed.

Lemma sort_desc_perm l : Permutation (sort_desc l) l.
Proof.
  induction l as [|x l IH]; simpl; [reflexivity|].
  rewrite insert_desc_perm. now constructor.
Qed.

Lemma sort_desc_length l : length (sort_desc l) = length l.
Proof. apply Permutation_length, sort_desc_perm. Qed.

Lemma names_sort_desc l : Permutation (names (sort_desc l)) (names l).
Proof. apply Permutation_map, sort_desc_perm. Qed.

(** ** The last two entries of [freqs] *)

Lemma last_two {A} (l : list A) :
  2 <= length l ->
  exists x y, skipn (length l - 2) l = [x; y] /\
              l = firstn (length l - 2) l ++ [x; y].
Proof.
  intros Hl.
  pose proof (firstn_skipn (length l - 2) l) as Hsplit.
  assert (Hlen : length (skipn (length l - 2) l) = 2)
    by (rewrite length_skipn; lia).
  destruct (skipn (length l - 2) l) as [|x [|y [|z r]]]; try discriminate.
  exists x, y. split; [reflexivity | now symmetry].
Qed.

(** ** The invariant of the merge loop *)

Section Builder.

Variable self : HuffmanCode.
Hypothesis Hself : codesnames self = map alpha_name (seq 0 256).

(** The symbols of the frequency table the builder is called with; none of
    them looks like a placeholder. *)
Variable syms : list str.
Hypothesis Hreal : forall x, In x syms -> re_match_pat x = None.

Record builder_inv (st : builder) (a : shadow) : Prop := {
  inv_render : b_codes st = render a;
  inv_nodup_names : NoDup (names (b_freqs st));
  inv_nodup_keys : NoDup (shadow_keys a);
  inv_disjoint :
    forall x, In x (names (b_freqs st)) -> ~ In x (shadow_keys a);
  inv_known :
    forall x, In x (names (b_freqs st)) \/ In x (shadow_keys a) ->
              In x syms \/ exists j, j < b_ptr st /\ x = alpha_name j;
  inv_syms :
    forall x, In x syms ->
              In x (names (b_freqs st)) \/ In x (shadow_keys a);
  inv_heads :
    forall k h b, In (k, (h, b)) a ->
      (exists j, h = alpha_name j) /\ In h (names (b_freqs st)) /\
      is_bits b /\ 1 <= length b <= b_ptr st;
  inv_prefix : heads_prefix_free syms a;
  inv_count : length (b_freqs st) + b_ptr st = length syms
}.

Lemma real_not_alpha x j : In x syms -> x <> alpha_name j.
Proof.
  intros Hx ->. apply Hreal in Hx. rewrite re_match_alpha_name in Hx.
  discriminate.
Qed.

Lemma inv_fresh st a x :
  builder_inv st a ->
  In x (names (b_freqs st)) \/ In x (shadow_keys a) ->
  x <> alpha_name (b_ptr st).
Proof.
  intros I Hx. destruct (inv_known _ _ I x Hx) as [Hs | (j & Hj & ->)].
  - now apply real_not_alpha.
  - intros E. apply alpha_name_inj in E. lia.
Qed.

Lemma inv_shadow_wf st a : builder_inv st a -> shadow_wf a.
Proof.
  intros I. split; [exact (inv_nodup_keys _ _ I)|].
  intros k h b Hin. destruct (inv_heads _ _ I _ _ _ Hin) as (Hj & Hn & Hb & _).
  repeat split; auto. now apply (inv_disjoint _ _ I).
Qed.

Lemma inv_head_not_real st a k h b :
  builder_inv st a -> In (k, (h, b)) a -> ~ In h syms.
Proof.
  intros I Hin Hs. destruct (inv_heads _ _ I _ _ _ Hin) as ((j & ->) & _).
  now apply (real_not_alpha _ j Hs).
Qed.

Lemma codesnames_at i :
  i < 256 -> list_at (codesnames self) i = Ok (alpha_name i).
Proof.
  intros Hi. unfold list_at. rewrite Hself, nth_error_map, nth_error_seq.
  apply Nat.ltb_lt in Hi. now rewrite Hi.
Qed.

(** What the state looks like after one turn, in terms of the shadow. *)
Lemma merge_step_inv st a :
  builder_inv st a ->
  2 < length (b_freqs st) ->
  length syms <= 258 ->
  exists st' a',
    merge_step self st = Ok st' /\ builder_inv st' a' /\
    length (b_freqs st') + 1 = length (b_freqs st).
Proof.
  intros I Hlen Hn.
  destruct (last_two (b_freqs st)) as (l0 & l1 & Hlast & Hfr); [lia|].
  set (top := firstn (length (b_freqs st) - 2) (b_freqs st)) in *.
  set (P := alpha_name (b_ptr st)).
  pose proof (inv_count _ _ I) as Hcount.
  assert (Hnames : names (b_freqs st) = names top ++ [snd l0; snd l1]).
  { rewrite Hfr at 1. unfold names. now rewrite map_app. }
  pose proof (inv_nodup_names _ _ I) as ND. rewrite Hnames in ND.
  assert (ND_top : NoDup (names top)) by now apply NoDup_app_remove_r in ND.
  assert (Hs01 : snd l0 <> snd l1).
  { apply NoDup_app_remove_l in ND. inversion ND as [|? ? Hni _]; subst.
    intros E. apply Hni. left. now symmetry. }
  assert (Hs0_top : ~ In (snd l0) (names top)).
  { apply NoDup_remove_2 in ND. intros H. apply ND, in_or_app. now left. }
  assert (Hs1_top : ~ In (snd l1) (names top)).
  { change (names top ++ [snd l0; snd l1])
      with (names top ++ [snd l0] ++ [snd l1]) in ND.
    rewrite app_assoc in ND. apply NoDup_remove_2 in ND.
    intros H. apply ND. rewrite app_nil_r. apply in_or_app. now left. }
  assert (Hin0 : In (snd l0) (names (b_freqs st)))
    by (rewrite Hnames; apply in_or_app; right; simpl; auto).
  assert (Hin1 : In (snd l1) (names (b_freqs st)))
    by (rewrite Hnames; apply in_or_app; right; simpl; auto).
  assert (Hpre : assign_pre a (snd l0) (snd l1) P).
  { split; [exact (inv_shadow_wf _ _ I)|]. repeat split.
    - exact Hs01.
    - now apply (inv_disjoint _ _ I).
    - now apply (inv_disjoint _ _ I).
    - right. repeat split.
      + now exists (b_ptr st).
      + intros H. now apply (inv_fresh _ _ P I (or_intror H)).
      + intros E. now apply (inv_fresh _ _ (snd l0) I (or_introl Hin0)).
      + intros E. now apply (inv_fresh _ _ (snd l1) I (or_introl Hin1)). }
  set (fr' := sort_desc
                (top ++ [(PrimFloat.add (fst l0) (fst l1), P)])).
  assert (Hfr' : forall x, In x (names fr') <-> In x (names top) \/ x = P).
  { intros x. unfold fr'. split; intros H.
    - apply (Permutation_in _ (names_sort_desc _)) in H.
      unfold names in H. rewrite map_app in H. apply in_app_or in H.
      destruct H as [H|[H|[]]]; auto.
    - apply (Permutation_in _ (Permutation_sym (names_sort_desc _))).
      unfold names. rewrite map_app. apply in_or_app.
      destruct H as [H| ->]; [now left | right; now left]. }
  assert (Hold : forall x, In x (names (b_freqs st)) <->
                           In x (names top) \/ x = snd l0 \/ x = snd l1).
  { intros x. rewrite Hnames, in_app_iff. simpl. intuition. }
  exists {| b_freqs := fr';
            b_codes := assign2 (b_codes st) (snd l0) (snd l1) P;
            b_ptr := S (b_ptr st) |},
         (stepped a (snd l0) (snd l1) P).
  split; [|split].
  - unfold merge_step. fold top. rewrite Hlast. cbn [list_at nth_error bind].
    rewrite codesnames_at by lia. reflexivity.
  - constructor; cbn [b_freqs b_codes b_ptr].
    + rewrite (inv_render _ _ I). now apply assign2_render.
    + unfold fr'.
      apply (Permutation_NoDup (Permutation_sym (names_sort_desc _))).
      unfold names. rewrite map_app. apply NoDup_app; auto.
      * constructor; [simpl; tauto | constructor].
      * intros x Hx [<-|[]].
        apply (inv_fresh _ _ P I); [|reflexivity].
        left. apply Hold. now left.
    + rewrite stepped_keys. apply NoDup_app.
      * exact (inv_nodup_keys _ _ I).
      * constructor; [simpl; intuition congruence
                     | constructor; [simpl; tauto | constructor]].
      * intros x Hx [<-|[<-|[]]]; revert Hx; now apply (inv_disjoint _ _ I).
    + intros x Hx. rewrite stepped_keys, in_app_iff. simpl.
      apply Hfr' in Hx. destruct Hx as [Hx | ->].
      * intros [H|[<-|[<-|[]]]]; auto.
        revert H. apply (inv_disjoint _ _ I). apply Hold. now left.
      * intros [H|[E|[E|[]]]].
        -- now apply (inv_fresh _ _ P I (or_intror H)).
        -- now apply (inv_fresh _ _ (snd l0) I (or_introl Hin0)).
        -- now apply (inv_fresh _ _ (snd l1) I (or_introl Hin1)).
    + intros x Hx.
      assert (Hx' : x = P \/ In x (names (b_freqs st)) \/ In x (shadow_keys a)).
      { rewrite stepped_keys, in_app_iff, Hfr' in Hx. rewrite Hold.
        simpl in Hx. intuition. }
      destruct Hx' as [-> | Hx'].
      * right. exists (b_ptr st). split; [lia | reflexivity].
      * destruct (inv_known _ _ I x Hx') as [H | (j & Hj & ->)]; auto.
        right. exists j. split; [lia | reflexivity].
    + intros x Hx. rewrite stepped_keys, in_app_iff, Hfr'. simpl.
      destruct (inv_syms _ _ I x Hx) as [H|H]; [|auto].
      apply Hold in H. intuition.
    + intros k h b Hin. apply stepped_cases in Hin.
      assert (HP : (exists j, P = alpha_name j) /\ In P (names fr'))
        by (split; [now exists (b_ptr st) | apply Hfr'; now right]).
      destruct Hin as [(h0 & b0 & Hin & C) | C].
      * destruct (inv_heads _ _ I _ _ _ Hin) as (Hj & Hhn & Hb & Hl).
        destruct C as [(-> & -> & ->) | [(? & -> & -> & ->) | (? & ? & -> & ->)]].
        -- destruct HP. repeat split; auto; simpl; try lia.
           constructor; auto.
        -- destruct HP. repeat split; auto; simpl; try lia.
           constructor; auto.
        -- repeat split; auto; try lia.
           apply Hfr'. apply Hold in Hhn. intuition.
      * destruct HP.
        destruct C as [(-> & -> & ->) | (-> & -> & ->)];
          repeat split; auto; simpl; try lia;
          first [apply is_bits_lit0 | apply is_bits_lit1].
    + apply stepped_prefix_free; [exact (inv_prefix _ _ I) | exact Hs01 |].
      intros k h b Hin. split.
      * destruct (inv_heads _ _ I _ _ _ Hin) as (_ & Hhn & _).
        now apply (inv_fresh _ _ h I (or_introl Hhn)).
      * now apply (inv_head_not_real _ _ _ _ _ I Hin).
    + unfold fr'. rewrite sort_desc_length, length_app. simpl.
      unfold top. rewrite length_firstn. lia.
  - cbn [b_freqs]. unfold fr'. rewrite sort_desc_length, length_app. simpl.
    unfold top. rewrite length_firstn. lia.
Qed.

Lemma merge_loop_inv fuel :
  length syms <= 258 ->
  forall st a,
    builder_inv st a ->
    length (b_freqs st) <= fuel ->
    exists st' a',
      merge_loop self fuel st = Ok st' /\ builder_inv st' a' /\
      length (b_freqs st') = Nat.min 2 (length (b_freqs st)).
Proof.
  intros Hn. induction fuel as [|fuel IH]; intros st a I Hfuel.
  - exists st, a. cbn [merge_loop].
    destruct (Nat.ltb_spec 2 (length (b_freqs st))); [lia|].
    split; [reflexivity | split; [assumption | lia]].
  - cbn [merge_loop].
    destruct (Nat.ltb_spec 2 (length (b_freqs st))) as [Hlt|Hge].
    + destruct (merge_step_inv st a I Hlt Hn) as (st1 & a1 & Hstep & I1 & Hl1).
      rewrite Hstep. cbn [bind].
      destruct (IH st1 a1 I1) as (st' & a' & Hloop & I' & Hl'); [lia|].
      exists st', a'. split; [assumption | split; [assumption | lia]].
    + exists st, a. split; [reflexivity | split; [assumption | lia]].
Qed.

End Builder.

(** ** [strip_placeholders] keeps the entries of real symbols *)

Definition real_key (kv : str * str) : bool :=
  match re_match_pat (fst kv) with Some _ => false | None => true end.

Lemma strip_fold (codes : dict str) :
  NoDup (dict_keys codes) ->
  forall l2 l1,
    codes = l1 ++ l2 ->
    fold_left
      (fun final_codes i =>
         match re_match_pat i with
         | Some _ => final_codes
         | None =>
             match dict_get codes i with
             | Some v => dict_set final_codes i v
             | None => final_codes
             end
         end)
      (dict_keys l2) (filter real_key l1)
    = filter real_key codes.
Proof.
  intros ND. induction l2 as [|[k v] l2 IH]; intros l1 Hc.
  - simpl. now rewrite Hc, app_nil_r.
  - simpl.
    assert (Hnext : codes = (l1 ++ [(k, v)]) ++ l2)
      by (rewrite Hc, <- app_assoc; reflexivity).
    rewrite <- (IH _ Hnext). f_equal.
    rewrite filter_app. cbn [filter].
    change (real_key (k, v))
      with (match re_match_pat k with Some _ => false | None => true end).
    destruct (re_match_pat k); [now rewrite app_nil_r|].
    rewrite (In_dict_get codes k v ND)
      by (rewrite Hc; apply in_or_app; right; now left).
    apply dict_set_fresh.
    rewrite Hc, dict_keys_app in ND. simpl in ND. apply NoDup_remove_2 in ND.
    intros H. apply ND, in_or_app. left.
    unfold dict_keys in *. apply in_map_iff in H.
    destruct H as (e & <- & He). apply filter_In in He. apply in_map, He.
Qed.

Lemma strip_placeholders_filter (codes : dict str) :
  NoDup (dict_keys codes) ->
  strip_placeholders codes = filter real_key codes.
Proof. intros ND. apply (strip_fold codes ND codes []). reflexivity. Qed.

Lemma NoDup_keys_filter {V} (p : str * V -> bool) (d : dict V) :
  NoDup (dict_keys d) -> NoDup (dict_keys (filter p d)).
Proof.
  unfold dict_keys. induction d as [|e d IH]; simpl; [auto|].
  intros ND. inversion ND as [|? ? Hn ND']; subst.
  destruct (p e); simpl; [|auto].
  constructor; [|auto].
  intros H. apply Hn. apply in_map_iff in H. destruct H as (e' & <- & He').
  apply filter_In in He'. apply in_map, He'.
Qed.

(** ** The table [create_encoder_dictionary] returns *)

(** A table for the symbols [syms]: one codeword of bits per symbol, no
    other key, lengths between 1 and [len(syms) - 1], and prefix-free. *)
Definition good_table (syms : list str) (T : dict str) : Prop :=
  NoDup (dict_keys T) /\
  (forall x, In x (dict_keys T) <-> In x syms) /\
  (forall k v, In (k, v) T ->
     is_bits v /\ 1 <= length v <= length syms - 1) /\
  prefix_free T.

Lemma builder_inv_init fr :
  NoDup (names fr) ->
  builder_inv (names fr) {| b_freqs := fr; b_codes := []; b_ptr := 0 |} [].
Proof.
  intros ND. constructor; cbn [b_freqs b_codes b_ptr]; simpl; auto.
  - constructor.
  - intros x [H|[]]; auto.
  - intros k h b [].
  - intros k1 b1 k2 b2 h [].
  - unfold names. rewrite length_map. lia.
Qed.

Lemma in_render a k v :
  In (k, v) (render a) <-> exists h b, In (k, (h, b)) a /\ v = h ++ b.
Proof.
  unfold render. rewrite in_map_iff. split.
  - intros ([k' [h b]] & [= <- <-] & Hin). eauto.
  - intros (h & b & Hin & ->). exists (k, (h, b)). auto.
Qed.

Lemma in_shadow_keys a k :
  In k (shadow_keys a) <-> exists h b, In (k, (h, b)) a.
Proof.
  unfold shadow_keys. rewrite in_map_iff. split.
  - intros ([k' [h b]] & <- & Hin). eauto.
  - intros (h & b & Hin). exists (k, (h, b)). auto.
Qed.

Theorem create_encoder_dictionary_spec self fr :
  codesnames self = map alpha_name (seq 0 256) ->
  NoDup (names fr) ->
  (forall x, In x (names fr) -> re_match_pat x = None) ->
  2 <= length fr <= 258 ->
  exists T,
    create_encoder_dictionary self fr = Ok T /\ good_table (names fr) T.
Proof.
  intros Hself ND Hreal Hlen.
  set (syms := names fr) in *.
  assert (Hn : length syms = length fr) by apply length_map.
  destruct (merge_loop_inv self Hself syms Hreal (length fr) ltac:(lia)
              _ _ (builder_inv_init fr ND) (Nat.le_refl _))
    as (st & a & Hloop & I & Hl).
  cbn [b_freqs] in Hl. rewrite Nat.min_l in Hl by lia.
  destruct (b_freqs st) as [|f0 [|f1 [|f2 r]]] eqn:Hfr; try discriminate.
  set (s0 := snd f0). set (s1 := snd f1).
  pose proof (inv_count _ _ _ I) as Hcount. rewrite Hfr in Hcount.
  cbn [length] in Hcount.
  pose proof (inv_nodup_names _ _ _ I) as NDn. rewrite Hfr in NDn.
  cbn [names map] in NDn. fold s0 s1 in NDn.
  assert (Hs01 : s0 <> s1).
  { inversion NDn as [|? ? Hni _]; subst. intros E. apply Hni. now left. }
  assert (Hnames : forall x, In x (names (b_freqs st)) <-> x = s0 \/ x = s1).
  { intros x. rewrite Hfr. simpl. fold s0 s1. intuition. }
  assert (Hpre : assign_pre a s0 s1 []).
  { split; [exact (inv_shadow_wf _ _ _ I)|]. repeat split.
    - exact Hs01.
    - apply (inv_disjoint _ _ _ I). apply Hnames. now left.
    - apply (inv_disjoint _ _ _ I). apply Hnames. now right.
    - now left. }
  set (afin := stepped a s0 s1 []).
  assert (Hkeys : shadow_keys afin = shadow_keys a ++ [s0; s1])
    by apply stepped_keys.
  assert (NDk : NoDup (shadow_keys afin)).
  { rewrite Hkeys. apply NoDup_app.
    - exact (inv_nodup_keys _ _ _ I).
    - constructor; [simpl; intuition congruence
                   | constructor; [simpl; tauto | constructor]].
    - intros x Hx Hx'. revert Hx. apply (inv_disjoint _ _ _ I).
      apply Hnames. simpl in Hx'. intuition. }
  assert (F1 : forall k h b, In (k, (h, b)) afin ->
             h = [] /\ is_bits b /\ 1 <= length b <= length syms - 1).
  { intros k h b Hin. apply stepped_cases in Hin.
    destruct Hin as [(h0 & b0 & Hin & C) | C].
    - destruct (inv_heads _ _ _ I _ _ _ Hin) as (_ & Hhn & Hb & Hlb).
      apply Hnames in Hhn.
      destruct C as [(-> & -> & ->) | [(? & -> & -> & ->) | (? & ? & -> & ->)]];
        [ | | tauto];
        (split; [reflexivity | split; [constructor; auto | simpl; lia]]).
    - destruct C as [(-> & -> & ->) | (-> & -> & ->)];
        (split; [reflexivity | split; [|simpl; lia]]);
        [apply is_bits_lit0 | apply is_bits_lit1]. }
  assert (F2 : heads_prefix_free syms afin).
  { apply stepped_prefix_free; [exact (inv_prefix _ _ _ I) | exact Hs01 |].
    intros k h b Hin. split.
    - destruct (inv_heads _ _ _ I _ _ _ Hin) as ((j & ->) & _).
      destruct (alpha_name_cons j) as [p ->]. discriminate.
    - exact (inv_head_not_real syms Hreal _ _ _ _ _ I Hin). }
  assert (F4 : forall x, In x (shadow_keys afin) ->
                         re_match_pat x = None -> In x syms).
  { intros x Hx Hm.
    assert (Hx' : In x (names (b_freqs st)) \/ In x (shadow_keys a)).
    { rewrite Hkeys, in_app_iff in Hx. rewrite Hnames. simpl in Hx. intuition. }
    destruct (inv_known _ _ _ I x Hx') as [H | (j & _ & ->)]; [exact H|].
    rewrite re_match_alpha_name in Hm. discriminate. }
  assert (F5 : forall x, In x syms -> In x (shadow_keys afin)).
  { intros x Hx. rewrite Hkeys, in_app_iff. simpl.
    destruct (inv_syms _ _ _ I x Hx) as [H|H]; [|auto].
    apply Hnames in H. intuition. }
  exists (filter real_key (render afin)).
  split.
  - unfold create_encoder_dictionary. rewrite Hloop. cbn [bind].
    rewrite Hfr. cbn [list_at nth_error bind].
    change (update_dictionary
              (dict_set (dict_set (b_codes st) (snd f0) (lit "0"))
                 (snd f1) (lit "1")))
      with (assign2 (b_codes st) s0 s1 []).
    rewrite (inv_render _ _ _ I), (assign2_render a s0 s1 [] Hpre).
    fold (stepped a s0 s1 []). fold afin.
    f_equal. apply strip_placeholders_filter. now rewrite render_keys.
  - assert (HT : forall k v, In (k, v) (filter real_key (render afin)) ->
               In k syms /\ In (k, ([], v)) afin).
    { intros k v Hin. apply filter_In in Hin. destruct Hin as [Hin Hr].
      apply in_render in Hin. destruct Hin as (h & b & Hin & ->).
      destruct (F1 _ _ _ Hin) as (-> & _). split; [|exact Hin].
      apply F4; [apply in_shadow_keys; eauto|].
      unfold real_key in Hr. cbn [fst] in Hr.
      destruct (re_match_pat k); [discriminate | reflexivity]. }
    repeat split.
    + apply NoDup_keys_filter. now rewrite render_keys.
    + intros Hx. unfold dict_keys in Hx. apply in_map_iff in Hx.
      destruct Hx as ([k v] & <- & Hin). now apply HT in Hin.
    + intros Hx. pose proof (F5 x Hx) as Hk.
      apply in_shadow_keys in Hk. destruct Hk as (h & b & Hin).
      unfold dict_keys. apply in_map_iff. exists (x, h ++ b).
      split; [reflexivity|]. apply filter_In. split.
      * apply in_render. eauto.
      * unfold real_key. cbn [fst]. now rewrite (Hreal x Hx).
    + apply HT in H. destruct H as [_ Hin]. now apply F1 in Hin.
    + apply HT in H. destruct H as [_ Hin]. apply F1 in Hin. lia.
    + apply HT in H. destruct H as [_ Hin]. apply F1 in Hin. lia.
    + intros k1 v1 k2 v2 H1 H2 Hne.
      apply HT in H1, H2. destruct H1 as [Hk1 H1]. destruct H2 as [Hk2 H2].
      exact (F2 _ _ _ _ _ H1 H2 Hne Hk1 Hk2).
Qed.

(** With fewer than two entries the loop does not run and line 86 or 87
    indexes past the end of [freqs]. *)
Lemma create_encoder_dictionary_short self fr :
  length fr < 2 -> create_encoder_dictionary self fr = Err IndexError.
Proof.
  intros Hl. unfold create_encoder_dictionary.
  destruct fr as [|x [|y r]]; [reflexivity | reflexivity | simpl in Hl; lia].
Qed.

(** ** The loop bound of the model is never reached *)

Lemma merge_step_error self st e : merge_step self st = Err e -> e = IndexError.
Proof.
  unfold merge_step, list_at.
  destruct (nth_error _ 0); cbn [bind]; [|now intros [= <-]].
  destruct (nth_error _ 1); cbn [bind]; [|now intros [= <-]].
  destruct (nth_error (codesnames self) _); cbn [bind];
    [discriminate | now intros [= <-]].
Qed.

Lemma merge_step_length self st st' :
  merge_step self st = Ok st' ->
  2 <= length (b_freqs st) ->
  length (b_freqs st') + 1 = length (b_freqs st).
Proof.
  unfold merge_step, list_at. intros H Hl.
  destruct (nth_error _ 0); cbn [bind] in H; [|discriminate].
  destruct (nth_error _ 1); cbn [bind] in H; [|discriminate].
  destruct (nth_error (codesnames self) _); cbn [bind] in H; [|discriminate].
  injection H as <-. cbn [b_freqs].
  rewrite sort_desc_length, length_app, length_firstn. simpl. lia.
Qed.

Lemma merge_loop_fuel self fuel : forall st,
  length (b_freqs st) <= fuel -> merge_loop self fuel st <> Err OutOfFuel.
Proof.
  induction fuel as [|fuel IH]; intros st Hl; cbn [merge_loop];
    destruct (Nat.ltb_spec 2 (length (b_freqs st))) as [Hlt|Hge];
    try discriminate; try lia.
  destruct (merge_step self st) as [st'|e] eqn:E; cbn [bind].
  - apply IH. apply merge_step_length in E; lia.
  - apply merge_step_error in E. subst e. discriminate.
Qed.

Lemma create_encoder_dictionary_fuel self fr :
  create_encoder_dictionary self fr <> Err OutOfFuel.
Proof.
  unfold create_encoder_dictionary.
  destruct (merge_loop self (length fr) _) as [st|e] eqn:E; cbn [bind].
  - unfold list_at.
    destruct (nth_error _ 0); cbn [bind]; [|discriminate].
    destruct (nth_error _ 1); cbn [bind]; discriminate.
  - intros [= ->]. revert E. apply merge_loop_fuel. cbn [b_freqs]. lia.
Qed.

(** ** The frequency table *)

Lemma dict_keys_set {V} (d : dict V) k v :
  dict_keys (dict_set d k v) =
  if dict_mem d k then dict_keys d else dict_keys d ++ [k].
Proof.
  unfold dict_mem. destruct (dict_get d k) eqn:E.
  - apply dict_keys_set_present. eapply dict_get_In_keys; eauto.
  - apply dict_get_None in E. rewrite dict_set_fresh by exact E.
    now rewrite dict_keys_app.
Qed.

Lemma dict_set_keys_spec {V} (d : dict V) k v :
  NoDup (dict_keys d) ->
  NoDup (dict_keys (dict_set d k v)) /\
  forall x, In x (dict_keys (dict_set d k v)) <-> In x (dict_keys d) \/ x = k.
Proof.
  intros ND. rewrite dict_keys_set. unfold dict_mem.
  destruct (dict_get d k) eqn:E.
  - split; [exact ND|]. intros x. split; [auto|].
    intros [H| ->]; [exact H | eapply dict_get_In_keys; eauto].
  - apply dict_get_None in E. split.
    + apply NoDup_app; [exact ND | constructor; [simpl; tauto | constructor] |].
      intros x Hx [<-|[]]. auto.
    + intros x. rewrite in_app_iff. simpl. intuition.
Qed.

Lemma count_fold (l : list str) : forall acc : dict Z,
  NoDup (dict_keys acc) ->
  let r := fold_left
    (fun counts x =>
       dict_set counts x
         ((match dict_get counts x with Some c => c | None => 0 end) + 1)%Z)
    l acc in
  NoDup (dict_keys r) /\
  forall x, In x (dict_keys r) <-> In x (dict_keys acc) \/ In x l.
Proof.
  induction l as [|s l IH]; intros acc ND; simpl.
  - split; [exact ND | intuition].
  - match goal with |- context [dict_set acc s ?v] =>
      destruct (dict_set_keys_spec acc s v ND) as [ND' Hk];
      destruct (IH (dict_set acc s v) ND') as [NDr Hr]
    end.
    split; [exact NDr|]. intros x. rewrite Hr, Hk. intuition.
Qed.

Lemma count_symbols_keys (l : list str) :
  NoDup (dict_keys (count_symbols l)) /\
  forall x, In x (dict_keys (count_symbols l)) <-> In x l.
Proof.
  destruct (count_fold l [] (NoDup_nil _)) as [ND H].
  split; [exact ND|]. intros x. rewrite (H x). simpl. intuition.
Qed.

Lemma make_frequency_tuples_names (l : list str) :
  Permutation (names (make_frequency_tuples l)) (dict_keys (count_symbols l)).
Proof.
  unfold make_frequency_tuples. rewrite names_sort_desc.
  unfold names, dict_keys. rewrite !map_map. simpl. reflexivity.
Qed.

Lemma make_frequency_tuples_spec (l : list str) :
  NoDup (names (make_frequency_tuples l)) /\
  forall x, In x (names (make_frequency_tuples l)) <-> In x l.
Proof.
  destruct (count_symbols_keys l) as [ND H]. split.
  - apply (Permutation_NoDup (Permutation_sym (make_frequency_tuples_names l))).
    exact ND.
  - intros x. rewrite <- H. split; apply Permutation_in;
      [|apply Permutation_sym]; apply make_frequency_tuples_names.
Qed.

(** ** Bytes as binary strings *)

Lemma bits8_is_bits n : is_bits (bits8 n).
Proof.
  unfold bits8, is_bits. apply Forall_map, Forall_forall.
  intros i _. destruct (Z.testbit n i); simpl; auto.
Qed.

Lemma bits8_length n : length (bits8 n) = 8.
Proof. reflexivity. Qed.

Lemma bin_uint_bits8 n : (0 <= n < 256)%Z -> bin_uint (bits8 n) = Ok n.
Proof.
  intros Hn.
  assert (H : forallb
                (fun i => match bin_uint (bits8 (Z.of_nat i)) with
                          | Ok v => Z.eqb v (Z.of_nat i)
                          | Err _ => false
                          end) (seq 0 256) = true) by (vm_compute; reflexivity).
  rewrite forallb_forall in H. specialize (H (Z.to_nat n)).
  rewrite Z2Nat.id in H by lia.
  destruct (bin_uint (bits8 n)) as [v|e].
  - f_equal. apply Z.eqb_eq. apply H. apply in_seq. lia.
  - discriminate H. apply in_seq. lia.
Qed.

Lemma bits8_inj n m :
  (0 <= n < 256)%Z -> (0 <= m < 256)%Z -> bits8 n = bits8 m -> n = m.
Proof.
  intros Hn Hm E. apply (f_equal bin_uint) in E.
  rewrite !bin_uint_bits8 in E by assumption. now injection E.
Qed.

Lemma byte_range b : (0 <= Z.of_N (Byte.to_N b) < 256)%Z.
Proof. pose proof (Byte.to_N_bounded b). lia. Qed.

Lemma byte_bin_inj b c : byte_bin b = byte_bin c -> b = c.
Proof.
  intros E. apply bits8_inj in E; try apply byte_range.
  apply N2Z.inj in E. apply (f_equal Byte.of_N) in E.
  rewrite !Byte.of_to_N in E. now injection E.
Qed.

Lemma byte_bin_is_bits b : is_bits (byte_bin b).
Proof. apply bits8_is_bits. Qed.

Lemma byte_bin_real b : re_match_pat (byte_bin b) = None.
Proof. apply re_match_bits, byte_bin_is_bits. Qed.

(** There are 256 binary strings of a byte. *)
Lemma byte_bin_enum b :
  In (byte_bin b) (map (fun i => bits8 (Z.of_nat i)) (seq 0 256)).
Proof.
  apply in_map_iff. exists (N.to_nat (Byte.to_N b)). split.
  - unfold byte_bin. f_equal. lia.
  - apply in_seq. pose proof (Byte.to_N_bounded b). lia.
Qed.

Lemma symbols_at_most_256 (l : list str) :
  NoDup l -> (forall x, In x l -> exists b, x = byte_bin b) ->
  length l <= 256.
Proof.
  intros ND H.
  change 256 with (length (map (fun i => bits8 (Z.of_nat i)) (seq 0 256))).
  apply NoDup_incl_length; [exact ND|].
  intros x Hx. destruct (H x Hx) as [b ->]. apply byte_bin_enum.
Qed.

(** ** The header *)

(** The bits one table entry contributes to the header. *)
Definition entry_bits (kv : str * str) : str :=
  fst kv ++ bits8 (Z.of_nat (length (snd kv))) ++ snd kv.

Definition swap (kv : str * str) : str * str := (snd kv, fst kv).

Lemma uint8_bin_ok n : (0 <= n < 256)%Z -> uint8_bin n = Ok (bits8 n).
Proof.
  intros Hn. unfold uint8_bin.
  destruct (Z.leb_spec 0 n); [|lia]. destruct (Z.ltb_spec n 256); [|lia].
  reflexivity.
Qed.

Lemma header_entries_ok (T : dict str) :
  (forall k v, In (k, v) T -> length v < 256) ->
  header_entries T = Ok (flat_map entry_bits T).
Proof.
  induction T as [|[k v] T IH]; intros H; [reflexivity|].
  cbn [header_entries flat_map].
  rewrite uint8_bin_ok by (specialize (H k v (or_introl eq_refl)); lia).
  cbn [bind]. rewrite IH by (intros; eapply H; right; eauto).
  cbn [bind]. unfold entry_bits. cbn [fst snd].
  now rewrite <- !app_assoc.
Qed.

Lemma make_header_ok (bin_string : str) (T : dict str) :
  1 <= length T <= 256 ->
  (forall k v, In (k, v) T -> length v < 256) ->
  make_header bin_string T =
  Ok (bits8 (Z.of_nat (length T) - 1) ++ flat_map entry_bits T).
Proof.
  intros Hl H. unfold make_header.
  rewrite uint8_bin_ok by lia. cbn [bind].
  rewrite header_entries_ok by exact H. reflexivity.
Qed.

Lemma firstn_exact {A} n (a b : list A) :
  length a = n -> firstn n (a ++ b) = a.
Proof.
  intros <-. rewrite firstn_app, Nat.sub_diag, firstn_all. simpl.
  apply app_nil_r.
Qed.

Lemma skipn_exact {A} n (a b : list A) :
  length a = n -> skipn n (a ++ b) = b.
Proof.
  intros <-. rewrite skipn_app, Nat.sub_diag, skipn_all. reflexivity.
Qed.

Lemma parse_entry_ok (st : header_state) k v (rest : str) :
  length k = 8 -> length v < 256 ->
  ~ In v (dict_keys (h_code2symb st)) ->
  h_bin st = entry_bits (k, v) ++ rest ->
  parse_entry st =
  Ok {| h_code2symb := h_code2symb st ++ [(v, k)];
        h_head := h_head st ++ entry_bits (k, v);
        h_bin := rest |}.
Proof.
  intros Hk Hv Hfresh Hb. unfold parse_entry. rewrite Hb.
  unfold entry_bits. cbn [fst snd]. set (n := length v).
  assert (E8 : slice 8 16 ((k ++ bits8 (Z.of_nat n) ++ v) ++ rest)
               = bits8 (Z.of_nat n)).
  { unfold slice. rewrite <- !app_assoc, (skipn_exact 8 k) by exact Hk.
    now apply firstn_exact. }
  rewrite E8, bin_uint_bits8 by lia. cbn [bind]. rewrite Nat2Z.id.
  assert (E0 : slice 0 8 ((k ++ bits8 (Z.of_nat n) ++ v) ++ rest) = k).
  { unfold slice. cbn [skipn]. rewrite <- app_assoc. now apply firstn_exact. }
  assert (E16 : slice 16 (16 + n) ((k ++ bits8 (Z.of_nat n) ++ v) ++ rest) = v).
  { unfold slice.
    replace (16 + n - 16) with n by lia.
    rewrite <- !app_assoc, (app_assoc k).
    rewrite skipn_exact by (rewrite length_app, Hk; reflexivity).
    now apply firstn_exact. }
  rewrite E0, E16.
  rewrite firstn_exact by (rewrite !length_app, Hk, bits8_length; lia).
  rewrite skipn_exact by (rewrite !length_app, Hk, bits8_length; lia).
  rewrite dict_set_fresh by exact Hfresh. reflexivity.
Qed.

Lemma parse_entries_ok (T : dict str) : forall (st : header_state) (rest : str),
  (forall k v, In (k, v) T -> length k = 8 /\ length v < 256) ->
  NoDup (map snd T) ->
  (forall k v, In (k, v) T -> ~ In v (dict_keys (h_code2symb st))) ->
  h_bin st = flat_map entry_bits T ++ rest ->
  parse_entries (length T) st =
  Ok {| h_code2symb := h_code2symb st ++ map swap T;
        h_head := h_head st ++ flat_map entry_bits T;
        h_bin := rest |}.
Proof.
  induction T as [|[k v] T IH]; intros st rest Hlen ND Hfresh Hb.
  - simpl in *. rewrite !app_nil_r. destruct st; simpl in *. now subst.
  - cbn [length parse_entries flat_map] in *.
    destruct (Hlen k v (or_introl eq_refl)) as [Hk Hv].
    rewrite <- app_assoc in Hb.
    rewrite (parse_entry_ok st k v _ Hk Hv (Hfresh k v (or_introl eq_refl)) Hb).
    cbn [bind]. inversion ND as [|? ? Hni ND']; subst.
    rewrite (IH _ rest); cbn [h_code2symb h_head h_bin].
    + cbn [map]. unfold swap at 2. cbn [fst snd].
      now rewrite <- !app_assoc.
    + intros; apply Hlen; now right.
    + exact ND'.
    + intros k' v' Hin. rewrite dict_keys_app, in_app_iff. simpl.
      intros [H|[<-|[]]].
      * revert H. apply (Hfresh k' v'). now right.
      * apply Hni. apply (in_map snd) in Hin. exact Hin.
    + reflexivity.
Qed.

Lemma parse_header_ok (T : dict str) (pad : Z) (rest : str) :
  1 <= length T <= 256 ->
  (forall k v, In (k, v) T -> length k = 8 /\ length v < 256) ->
  NoDup (map snd T) ->
  (0 <= pad < 256)%Z ->
  let header := bits8 (Z.of_nat (length T) - 1) ++ flat_map entry_bits T in
  parse_header (bits8 pad ++ header ++ rest) =
  Ok (pad, {| h_code2symb := map swap T;
              h_head := bits8 pad ++ header;
              h_bin := rest |}).
Proof.
  intros Hl Hlen ND Hpad header. unfold parse_header, header.
  set (n := (Z.of_nat (length T) - 1)%Z).
  assert (E0 : slice 0 8 (bits8 pad ++ (bits8 n ++ flat_map entry_bits T) ++ rest)
               = bits8 pad).
  { unfold slice. cbn [skipn]. now apply firstn_exact. }
  assert (E8 : slice 8 16 (bits8 pad ++ (bits8 n ++ flat_map entry_bits T) ++ rest)
               = bits8 n).
  { unfold slice. rewrite skipn_exact by reflexivity.
    rewrite <- app_assoc. now apply firstn_exact. }
  rewrite E0, E8, !bin_uint_bits8 by (unfold n; lia). cbn [bind].
  replace (Z.to_nat (n + 1)) with (length T) by (unfold n; lia).
  rewrite (parse_entries_ok T _ rest); cbn [h_code2symb h_head h_bin].
  - cbn [app]. do 3 f_equal.
    rewrite <- !app_assoc, (app_assoc (bits8 pad)).
    rewrite firstn_exact by reflexivity. now rewrite <- !app_assoc.
  - exact Hlen.
  - exact ND.
  - intros k v _ [].
  - rewrite <- !app_assoc, (app_assoc (bits8 pad)).
    now rewrite skipn_exact by reflexivity.
Qed.

Lemma swap_lookup (T : dict str) c s :
  NoDup (map snd T) ->
  (dict_get (map swap T) c = Some s <-> In (s, c) T).
Proof.
  intros ND. split.
  - intros H. apply dict_get_Some_In in H. apply in_map_iff in H.
    destruct H as ([k v] & [= <- <-] & Hin). exact Hin.
  - intros H. apply In_dict_get.
    + unfold dict_keys. rewrite map_map. exact ND.
    + apply in_map_iff. exists (s, c). auto.
Qed.

(** ** The bit scan on a prefix-free table *)

(** No proper nonempty prefix of [w] is a key of [D]. *)
Definition no_proper_prefix (D : dict str) (w : str) : Prop :=
  forall u t, w = u ++ t -> u <> [] -> t <> [] -> dict_get D u = None.

Lemma scan_codeword (D : dict str) (s : str) :
  forall (c p out : str),
    c <> [] ->
    dict_get D (p ++ c) = Some s ->
    no_proper_prefix D (p ++ c) ->
    fold_left (scan_bit D) c (p, out) = ([], out ++ s).
Proof.
  induction c as [|x c IH]; intros p out Hc Hget Hnp; [congruence|].
  cbn [fold_left]. unfold scan_bit at 2. cbn [fst snd].
  destruct c as [|y c].
  - rewrite Hget. reflexivity.
  - rewrite (Hnp (p ++ [x]) (y :: c)).
    + apply IH; [discriminate | | ]; now rewrite <- app_assoc.
    + now rewrite <- app_assoc.
    + destruct p; discriminate.
    + discriminate.
Qed.

Lemma prefix_free_no_proper_prefix (T : dict str) k c :
  NoDup (dict_keys T) -> NoDup (map snd T) -> prefix_free T ->
  In (k, c) T -> no_proper_prefix (map swap T) c.
Proof.
  intros NDk NDc PF Hin u t -> Hu Ht.
  destruct (dict_get (map swap T) u) as [k'|] eqn:E; [|reflexivity].
  apply swap_lookup in E; [|exact NDc]. exfalso.
  assert (Hne : k' <> k).
  { intros ->. pose proof (In_dict_get T k _ NDk E) as E1.
    rewrite (In_dict_get T k _ NDk Hin) in E1. injection E1 as E1.
    rewrite <- (app_nil_r u) in E1 at 2. apply app_inv_head in E1.
    contradiction. }
  apply (PF k' u k (u ++ t) E Hin Hne). now exists t.
Qed.

Lemma encode_scan (T : dict str) :
  NoDup (dict_keys T) -> NoDup (map snd T) -> prefix_free T ->
  (forall k v, In (k, v) T -> v <> []) ->
  forall bitlist,
    (forall x, In x bitlist -> In x (dict_keys T)) ->
    exists payload,
      encode_symbols T bitlist = Ok payload /\
      forall out tail,
        fold_left (scan_bit (map swap T)) (payload ++ tail) ([], out) =
        fold_left (scan_bit (map swap T)) tail ([], out ++ concat bitlist).
Proof.
  intros NDk NDc PF Hne bitlist.
  induction bitlist as [|x l IH]; intros Hin.
  - exists []. split; [reflexivity|]. intros. simpl. now rewrite app_nil_r.
  - destruct IH as (pl & Henc & Hscan); [intros; apply Hin; now right|].
    assert (Hx : In x (dict_keys T)) by (apply Hin; now left).
    destruct (dict_get T x) as [c|] eqn:E;
      [|apply dict_get_None in E; contradiction].
    exists (c ++ pl). split.
    + cbn [encode_symbols]. unfold dict_at. rewrite E. cbn [bind].
      rewrite Henc. reflexivity.
    + intros out tail. apply dict_get_Some_In in E.
      rewrite <- app_assoc, fold_left_app.
      match goal with
      | |- fold_left _ _ ?X = _ => assert (Hc : X = ([], out ++ x))
      end.
      { apply (scan_codeword (map swap T) x c [] out).
        - exact (Hne _ _ E).
        - apply swap_lookup; assumption.
        - eapply prefix_free_no_proper_prefix; eauto. }
      rewrite Hc, Hscan. cbn [concat]. now rewrite app_assoc.
Qed.

(** ** [Encode], step by step *)

(** The padding count of line 132 for a stream of [total_bits] bits. *)
Definition pad_of (total_bits : nat) : nat := 8 - total_bits mod 8.

Lemma pad_of_range n : 1 <= pad_of n <= 8.
Proof.
  unfold pad_of. pose proof (Nat.mod_upper_bound n 8). lia.
Qed.

Lemma padded_length n : (8 + n + pad_of n) mod 8 = 0.
Proof.
  unfold pad_of. pose proof (Nat.mod_upper_bound n 8 ltac:(lia)).
  pose proof (Nat.div_mod_eq n 8).
  replace (8 + n + (8 - n mod 8)) with ((n / 8 + 2) * 8) by lia.
  apply Nat.Div0.mod_mul.
Qed.

(** The instance after a successful [Encode]. *)
Definition encoded_instance (self : HuffmanCode) (file : list byte)
    (T : dict str) (payload enc : str) : HuffmanCode :=
  {| codesnames := codesnames self;
     orig_encoded_string := Some payload;
     freqs := Some (make_frequency_tuples (read_bytes file));
     encoder_dict := Some T;
     bitlist := Some (read_bytes file);
     encoded_string := Some enc |}.

(** The string [Encode] assembles on line 133. *)
Definition framed (header payload : str) : str :=
  bits8 (Z.of_nat (pad_of (length (header ++ payload))))
  ++ (header ++ payload)
  ++ str_repeat "0"%char (pad_of (length (header ++ payload))).

Lemma framed_length header payload :
  length (framed header payload) =
  8 + length (header ++ payload) + pad_of (length (header ++ payload)).
Proof.
  unfold framed, str_repeat.
  rewrite !length_app, repeat_length, bits8_length. lia.
Qed.

Lemma Encode_steps self file T payload header :
  create_encoder_dictionary self (make_frequency_tuples (read_bytes file))
    = Ok T ->
  encode_symbols T (read_bytes file) = Ok payload ->
  make_header payload T = Ok header ->
  Encode self file =
  Ok (framed header payload,
      encoded_instance self file T payload (framed header payload)).
Proof.
  intros HT Hp Hh. unfold Encode. rewrite HT. cbn [bind].
  rewrite Hp. cbn [bind]. rewrite Hh. cbn [bind].
  fold (pad_of (length (header ++ payload))).
  pose proof (pad_of_range (length (header ++ payload))) as Hr.
  rewrite uint8_bin_ok by lia. cbn [bind].
  fold (framed header payload).
  rewrite framed_length, padded_length. reflexivity.
Qed.

Lemma Encode_Ok_inv self file enc self' :
  Encode self file = Ok (enc, self') ->
  exists T payload header,
    create_encoder_dictionary self (make_frequency_tuples (read_bytes file))
      = Ok T /\
    encode_symbols T (read_bytes file) = Ok payload /\
    make_header payload T = Ok header /\
    enc = framed header payload /\
    self' = encoded_instance self file T payload enc.
Proof.
  intros H.
  destruct (create_encoder_dictionary self
              (make_frequency_tuples (read_bytes file))) as [T|e] eqn:HT;
    [|unfold Encode in H; rewrite HT in H; discriminate].
  destruct (encode_symbols T (read_bytes file)) as [payload|e] eqn:Hp;
    [|unfold Encode in H; rewrite HT in H; cbn [bind] in H;
      rewrite Hp in H; discriminate].
  destruct (make_header payload T) as [header|e] eqn:Hh;
    [|unfold Encode in H; rewrite HT in H; cbn [bind] in H;
      rewrite Hp in H; cbn [bind] in H; rewrite Hh in H; discriminate].
  rewrite (Encode_steps self file T payload header HT Hp Hh) in H.
  injection H as <- <-. exists T, payload, header. auto.
Qed.

(** ** From the table to the round trip *)

Lemma prefix_free_codes_nodup (T : dict str) :
  NoDup (dict_keys T) -> prefix_free T -> NoDup (map snd T).
Proof.
  induction T as [|[k v] T IH]; intros ND PF; simpl; constructor.
  - intros Hin. apply in_map_iff in Hin. destruct Hin as ([k' v'] & E & Hin).
    simpl in E. subst v'.
    inversion ND as [|? ? Hni _]; subst.
    apply (PF k v k' v); [now left | now right | | exists []; now rewrite app_nil_r].
    intros ->. apply Hni. apply (in_map fst) in Hin. exact Hin.
  - apply IH; [now inversion ND|].
    intros k1 v1 k2 v2 H1 H2. apply PF; now right.
Qed.

Lemma two_distinct_length {A} (l : list A) a b :
  NoDup l -> In a l -> In b l -> a <> b -> 2 <= length l.
Proof.
  intros ND Ha Hb Hne.
  change 2 with (length [a; b]). apply NoDup_incl_length.
  - constructor; [simpl; intuition congruence | constructor; [simpl; tauto | constructor]].
  - intros x [<-|[<-|[]]]; assumption.
Qed.

(** The symbols of a file: the binary strings of its bytes. *)
Definition symbols (file : list byte) : list str :=
  names (make_frequency_tuples (read_bytes file)).

Lemma symbols_spec file :
  NoDup (symbols file) /\
  (forall x, In x (symbols file) <-> exists b, In b file /\ x = byte_bin b).
Proof.
  destruct (make_frequency_tuples_spec (read_bytes file)) as [ND H].
  split; [exact ND|]. intros x. unfold symbols. rewrite H.
  unfold read_bytes. rewrite in_map_iff. split; intros (b & A & B); eauto.
Qed.

Lemma symbols_length file : length (symbols file) <= 256.
Proof.
  destruct (symbols_spec file) as [ND H].
  apply symbols_at_most_256; [exact ND|].
  intros x Hx. apply H in Hx. destruct Hx as (b & _ & ->). eauto.
Qed.

Lemma symbols_real file x : In x (symbols file) -> re_match_pat x = None.
Proof.
  intros Hx. apply symbols_spec in Hx. destruct Hx as (b & _ & ->).
  apply byte_bin_real.
Qed.

(** The file holds at least two different byte values. *)
Definition two_symbols (file : list byte) : Prop :=
  exists b1 b2, In b1 file /\ In b2 file /\ b1 <> b2.

Lemma two_symbols_length file : two_symbols file -> 2 <= length (symbols file).
Proof.
  intros (b1 & b2 & H1 & H2 & Hne).
  destruct (symbols_spec file) as [ND H].
  apply (two_distinct_length _ (byte_bin b1) (byte_bin b2) ND).
  - apply H; eauto.
  - apply H; eauto.
  - intros E. now apply byte_bin_inj in E.
Qed.

Lemma table_of_file self file :
  codesnames self = map alpha_name (seq 0 256) ->
  two_symbols file ->
  exists T,
    create_encoder_dictionary self (make_frequency_tuples (read_bytes file))
      = Ok T /\
    good_table (symbols file) T.
Proof.
  intros Hself H2.
  apply create_encoder_dictionary_spec.
  - exact Hself.
  - apply symbols_spec.
  - apply symbols_real.
  - pose proof (two_symbols_length file H2). pose proof (symbols_length file).
    unfold symbols, names in *. rewrite length_map in *. lia.
Qed.

Lemma good_table_length syms T :
  NoDup syms -> good_table syms T -> length T = length syms.
Proof.
  intros ND (NDk & Hk & _).
  rewrite <- (length_map fst T). apply Permutation_length.
  apply NoDup_Permutation; assumption.
Qed.

Lemma drop_last_app (p z : str) : drop_last (length z) (p ++ z) = p.
Proof.
  unfold drop_last. rewrite length_app.
  replace (length p + length z - length z) with (length p) by lia.
  now apply firstn_exact.
Qed.

(** [Decode] on a well-formed stream: a header for [T], the codewords of
    [bitlist], and [pad] zero bits. *)
(** [Decode] on a stream made of a padding byte, the header of [T], a body
    and [pad] more bits: the scan runs over the body. *)
Lemma Decode_scan_stream (T : dict str) (pad : nat) (body tail : str) :
  1 <= length T <= 256 ->
  (forall k v, In (k, v) T -> length k = 8 /\ length v < 256) ->
  NoDup (map snd T) ->
  pad < 256 -> length tail = pad ->
  Decode_scan
    (bits8 (Z.of_nat pad)
     ++ (bits8 (Z.of_nat (length T) - 1) ++ flat_map entry_bits T)
     ++ body ++ tail)
  = Ok (scan_bits (map swap T) body).
Proof.
  intros Hl Hlen NDc Hpad Htail. unfold Decode_scan.
  rewrite (parse_header_ok T (Z.of_nat pad) (body ++ tail) Hl Hlen NDc)
    by lia.
  cbn [bind fst snd h_bin h_code2symb]. unfold remove_padding.
  rewrite Nat2Z.id.
  destruct (Z.ltb_spec 0 (Z.of_nat pad)) as [Hp|Hz].
  - rewrite <- Htail, drop_last_app. reflexivity.
  - assert (pad = 0) by lia. subst pad.
    destruct tail; [|discriminate]. now rewrite app_nil_r.
Qed.

Lemma scan_bits_encoded (T : dict str) (bitlist : list str) (payload : str) :
  NoDup (dict_keys T) -> prefix_free T ->
  (forall k v, In (k, v) T -> v <> []) ->
  (forall x, In x bitlist -> In x (dict_keys T)) ->
  encode_symbols T bitlist = Ok payload ->
  forall tail,
    scan_bits (map swap T) (payload ++ tail) =
    fold_left (scan_bit (map swap T)) tail ([], concat bitlist).
Proof.
  intros NDk PF Hne Hin Henc tail.
  destruct (encode_scan T NDk (prefix_free_codes_nodup T NDk PF) PF Hne
              bitlist Hin) as (payload' & Henc' & Hscan).
  rewrite Henc in Henc'. injection Henc' as <-.
  exact (Hscan [] tail).
Qed.

(** [Decode] on a well-formed stream: a header for [T], the codewords of
    [bitlist], and the padding of line 132. *)
Lemma Decode_framed (T : dict str) (bitlist : list str) (payload : str) :
  NoDup (dict_keys T) -> prefix_free T ->
  1 <= length T <= 256 ->
  (forall k v, In (k, v) T -> length k = 8 /\ 1 <= length v < 256) ->
  (forall x, In x bitlist -> In x (dict_keys T)) ->
  encode_symbols T bitlist = Ok payload ->
  Decode (framed (bits8 (Z.of_nat (length T) - 1) ++ flat_map entry_bits T)
            payload)
  = Ok (concat bitlist).
Proof.
  intros NDk PF Hl Hlen Hin Henc.
  pose proof (prefix_free_codes_nodup T NDk PF) as NDc.
  set (header := bits8 (Z.of_nat (length T) - 1) ++ flat_map entry_bits T).
  pose proof (pad_of_range (length (header ++ payload))) as Hpad.
  unfold Decode, framed. rewrite <- app_assoc.
  set (pad := pad_of (length (header ++ payload))) in *. unfold header.
  rewrite Decode_scan_stream;
    [|exact Hl | intros k v H; apply Hlen in H; lia | exact NDc | lia
     |apply repeat_length].
  cbn [bind].
  rewrite <- (app_nil_r payload).
  rewrite (scan_bits_encoded T bitlist payload NDk PF); auto.
  intros k v H E. apply Hlen in H. subst v. simpl in H. lia.
Qed.

(** Round trip for every file with at least two different byte values:
    [Encode] succeeds and [Decode] gives back the binary form of the file
    (the string [Decompress] writes out byte by byte). *)
Theorem Decode_Encode self file :
  codesnames self = map alpha_name (seq 0 256) ->
  two_symbols file ->
  exists enc self',
    Encode self file = Ok (enc, self') /\
    Decode enc = Ok (concat (read_bytes file)).
Proof.
  intros Hself H2.
  destruct (table_of_file self file Hself H2) as (T & HT & G).
  destruct (symbols_spec file) as [NDs Hs].
  pose proof (good_table_length _ _ NDs G) as HlT.
  pose proof (two_symbols_length file H2) as H2l.
  pose proof (symbols_length file) as H256.
  destruct G as (NDk & Hk & Hv & PF).
  assert (Hin : forall x, In x (read_bytes file) -> In x (dict_keys T)).
  { intros x Hx. apply Hk, Hs. unfold read_bytes in Hx.
    apply in_map_iff in Hx. destruct Hx as (b & <- & Hb). eauto. }
  assert (Hlen : forall k v, In (k, v) T -> length k = 8 /\ 1 <= length v < 256).
  { intros k v H. split.
    - assert (Hkk : In k (dict_keys T)) by (apply (in_map fst) in H; exact H).
      apply Hk, Hs in Hkk. destruct Hkk as (b & _ & ->). reflexivity.
    - apply Hv in H. lia. }
  destruct (encode_scan T NDk (prefix_free_codes_nodup T NDk PF) PF)
    with (bitlist := read_bytes file) as (payload & Henc & _).
  { intros k v H E. apply Hlen in H. subst v. simpl in H. lia. }
  { exact Hin. }
  assert (Hh : make_header payload T =
               Ok (bits8 (Z.of_nat (length T) - 1) ++ flat_map entry_bits T)).
  { apply make_header_ok; [lia|]. intros k v H. apply Hlen in H. lia. }
  eexists _, _. split.
  - exact (Encode_steps self file T payload _ HT Henc Hh).
  - apply (Decode_framed T (read_bytes file) payload NDk PF); auto. lia.
Qed.

(** ** Files with fewer than two different byte values *)

Lemma Encode_few_symbols self file :
  length (symbols file) < 2 -> Encode self file = Err IndexError.
Proof.
  intros Hl. unfold Encode.
  rewrite create_encoder_dictionary_short; [reflexivity|].
  unfold symbols, names in Hl. now rewrite length_map in Hl.
Qed.

Lemma one_value_length {A} (l : list A) a :
  NoDup l -> (forall x, In x l -> x = a) -> length l <= 1.
Proof.
  intros ND H. change 1 with (length [a]).
  apply NoDup_incl_length; [exact ND|].
  intros x Hx. left. symmetry. now apply H.
Qed.

Lemma symbols_one_value file b :
  (forall x, In x file -> x = b) -> length (symbols file) < 2.
Proof.
  intros H. destruct (symbols_spec file) as [ND Hs].
  apply Nat.lt_succ_r. apply (one_value_length _ (byte_bin b) ND).
  intros x Hx. apply Hs in Hx. destruct Hx as (c & Hc & ->).
  now rewrite (H c Hc).
Qed.

(** ** Executable checks of a code table *)

Fixpoint is_prefixb (p s : str) : bool :=
  match p, s with
  | [], _ => true
  | _ :: _, [] => false
  | x :: p', y :: s' => Ascii.eqb x y && is_prefixb p' s'
  end.

Fixpoint nodupb (l : list str) : bool :=
  match l with
  | [] => true
  | x :: l' => negb (existsb (str_eqb x) l') && nodupb l'
  end.

Definition prefix_freeb (T : dict str) : bool :=
  forallb
    (fun e1 =>
       forallb
         (fun e2 =>
            str_eqb (fst e1) (fst e2) || negb (is_prefixb (snd e1) (snd e2)))
         T)
    T.

(** A table [make_header] can write and [Decode] can read back: between 1
    and 256 entries, keys of 8 characters, codewords of 1 to 255 characters,
    distinct keys, and no codeword a prefix of another. *)
Definition valid_table (T : dict str) : Prop :=
  NoDup (dict_keys T) /\ prefix_free T /\
  1 <= length T <= 256 /\
  (forall k v, In (k, v) T -> length k = 8 /\ 1 <= length v < 256).

Definition valid_tableb (T : dict str) : bool :=
  nodupb (dict_keys T) && prefix_freeb T &&
  (1 <=? length T) && (length T <=? 256) &&
  forallb
    (fun e => (length (fst e) =? 8) && (1 <=? length (snd e))
              && (length (snd e) <? 256))
    T.

Lemma is_prefixb_complete p s : prefix p s -> is_prefixb p s = true.
Proof.
  intros [t ->]. induction p as [|x p IH]; simpl; [reflexivity|].
  now rewrite Ascii.eqb_refl, IH.
Qed.

Lemma nodupb_sound l : nodupb l = true -> NoDup l.
Proof.
  induction l as [|x l IH]; simpl; [constructor|].
  rewrite andb_true_iff, negb_true_iff. intros [Hx Hl].
  constructor; [|auto].
  intros Hin. assert (existsb (str_eqb x) l = true); [|congruence].
  apply existsb_exists. exists x. split; [exact Hin | apply str_eqb_refl].
Qed.

Lemma prefix_freeb_sound T : prefix_freeb T = true -> prefix_free T.
Proof.
  unfold prefix_freeb. rewrite forallb_forall.
  intros H k1 v1 k2 v2 H1 H2 Hne Hp.
  specialize (H _ H1). rewrite forallb_forall in H. specialize (H _ H2).
  cbn [fst snd] in H. apply orb_true_iff in H. destruct H as [H|H].
  - apply str_eqb_eq in H. contradiction.
  - rewrite (is_prefixb_complete _ _ Hp) in H. discriminate.
Qed.

Lemma valid_tableb_sound T : valid_tableb T = true -> valid_table T.
Proof.
  unfold valid_tableb. rewrite !andb_true_iff.
  intros [[[[Hn Hp] Hl1] Hl2] Hs]. repeat split.
  - now apply nodupb_sound.
  - now apply prefix_freeb_sound.
  - now apply Nat.leb_le.
  - now apply Nat.leb_le.
  - rewrite forallb_forall in Hs. specialize (Hs _ H).
    rewrite !andb_true_iff in Hs. now apply Nat.eqb_eq.
  - rewrite forallb_forall in Hs. specialize (Hs _ H).
    rewrite !andb_true_iff in Hs. now apply Nat.leb_le.
  - rewrite forallb_forall in Hs. specialize (Hs _ H).
    rewrite !andb_true_iff in Hs. now apply Nat.ltb_lt.
Qed.

(** The tables the builder returns for files are valid. *)
Lemma good_table_valid file T :
  2 <= length (symbols file) -> good_table (symbols file) T -> valid_table T.
Proof.
  intros H2 G. destruct (symbols_spec file) as [NDs Hs].
  pose proof (good_table_length _ _ NDs G) as HlT.
  pose proof (symbols_length file) as H256.
  destruct G as (NDk & Hk & Hv & PF).
  repeat split; auto; try lia.
  - assert (Hkk : In k (dict_keys T)) by (apply (in_map fst) in H; exact H).
    apply Hk, Hs in Hkk. destruct Hkk as (b & _ & ->). reflexivity.
  - apply Hv in H. lia.
  - apply Hv in H. lia.
Qed.

(** ** A scan that stops inside a codeword *)

Lemma scan_partial (D : dict str) : forall (u p out : str),
  (forall u1 u2, u = u1 ++ u2 -> u1 <> [] -> dict_get D (p ++ u1) = None) ->
  fold_left (scan_bit D) u (p, out) = (p ++ u, out).
Proof.
  induction u as [|x u IH]; intros p out H.
  - simpl. now rewrite app_nil_r.
  - cbn [fold_left]. unfold scan_bit at 2. cbn [fst snd].
    rewrite (H [x] u eq_refl) by discriminate.
    rewrite IH.
    + now rewrite <- app_assoc.
    + intros u1 u2 -> Hu1. rewrite <- app_assoc. apply (H (x :: u1) u2).
      * reflexivity.
      * discriminate.
Qed.

(** ** Calls on one instance *)

(** A call of a method of the object; [Decode] is a static method. *)
Inductive call : Type :=
| CallEncode (file : list byte)
| CallDecode (encoded_bin_string : str).

(** The object after a call: [Encode] assigns its attributes when it
    returns, an exception leaves the object as it was, and [Decode] has no
    access to the object. *)
Definition after_call (self : HuffmanCode) (c : call) : HuffmanCode :=
  match c with
  | CallEncode file =>
      match Encode self file with
      | Ok (_, self') => self'
      | Err _ => self
      end
  | CallDecode _ => self
  end.

Definition after_calls (self : HuffmanCode) (cs : list call) : HuffmanCode :=
  fold_left after_call cs self.

(** What the caller of [Encode] gets: the returned string or the exception. *)
Definition returned (r : result (str * HuffmanCode)) : result str :=
  match r with
  | Ok (enc, _) => Ok enc
  | Err e => Err e
  end.

Lemma merge_step_codesnames s1 s2 st :
  codesnames s1 = codesnames s2 -> merge_step s1 st = merge_step s2 st.
Proof. intros H. unfold merge_step. now rewrite H. Qed.

Lemma merge_loop_codesnames s1 s2 fuel :
  codesnames s1 = codesnames s2 ->
  forall st, merge_loop s1 fuel st = merge_loop s2 fuel st.
Proof.
  intros H. induction fuel as [|fuel IH]; intros st; [reflexivity|].
  cbn [merge_loop]. rewrite (merge_step_codesnames s1 s2 st H).
  destruct (merge_step s2 st); cbn [bind]; [now rewrite IH | reflexivity].
Qed.

Lemma create_encoder_dictionary_codesnames s1 s2 fr :
  codesnames s1 = codesnames s2 ->
  create_encoder_dictionary s1 fr = create_encoder_dictionary s2 fr.
Proof.
  intros H. unfold create_encoder_dictionary.
  now rewrite (merge_loop_codesnames s1 s2 _ H).
Qed.

Lemma Encode_returned_codesnames s1 s2 file :
  codesnames s1 = codesnames s2 ->
  returned (Encode s1 file) = returned (Encode s2 file).
Proof.
  intros H. unfold Encode.
  rewrite (create_encoder_dictionary_codesnames s1 s2 _ H).
  destruct (create_encoder_dictionary s2 _) as [T|]; cbn [bind]; [|reflexivity].
  destruct (encode_symbols T _) as [payload|]; cbn [bind]; [|reflexivity].
  destruct (make_header payload T) as [header|]; cbn [bind]; [|reflexivity].
  destruct (uint8_bin _) as [pad_byte|]; cbn [bind]; [|reflexivity].
  destruct (_ =? 0); reflexivity.
Qed.

Lemma Encode_keeps_codesnames self file enc self' :
  Encode self file = Ok (enc, self') -> codesnames self' = codesnames self.
Proof.
  intros H. apply Encode_Ok_inv in H.
  destruct H as (T & payload & header & _ & _ & _ & _ & ->). reflexivity.
Qed.

Lemma after_calls_codesnames cs : forall self,
  codesnames (after_calls self cs) = codesnames self.
Proof.
  unfold after_calls. induction cs as [|c cs IH]; intros self; [reflexivity|].
  cbn [fold_left]. rewrite IH. destruct c as [file|s]; [|reflexivity].
  cbn [after_call]. destruct (Encode self file) as [[enc self']|] eqn:E;
    [|reflexivity].
  exact (Encode_keeps_codesnames _ _ _ _ E).
Qed.

(** ** The numbers a header can declare *)

Lemma bin_value_bound (s : str) : forall acc v,
  bin_value acc s = Ok v ->
  (acc * 2 ^ Z.of_nat (length s) <= v < (acc + 1) * 2 ^ Z.of_nat (length s))%Z.
Proof.
  induction s as [|c s IH]; intros acc v H.
  - simpl in *. injection H as <-. lia.
  - cbn [bin_value] in H. destruct (bit_value c) as [b|] eqn:Hb; [|discriminate].
    apply IH in H. cbn [length]. rewrite Nat2Z.inj_succ, Z.pow_succ_r by lia.
    assert (b = 0 \/ b = 1)%Z as Hb01.
    { unfold bit_value in Hb.
      destruct (Ascii.eqb c "0"); [injection Hb as <-; auto|].
      destruct (Ascii.eqb c "1"); [injection Hb as <-; auto | discriminate]. }
    pose proof (Z.pow_pos_nonneg 2 (Z.of_nat (length s)) ltac:(lia) ltac:(lia)).
    destruct Hb01; subst b; nia.
Qed.

Lemma bin_uint_byte (s : str) v :
  length s <= 8 -> bin_uint s = Ok v -> (0 <= v < 256)%Z.
Proof.
  intros Hl H. unfold bin_uint in H.
  destruct (bin_value 0 s) as [w|] eqn:E; cbn [bind] in H; [|discriminate].
  destruct s; [discriminate|]. injection H as <-.
  apply bin_value_bound in E.
  assert (2 ^ Z.of_nat (length (a :: s)) <= 2 ^ 8)%Z
    by (apply Z.pow_le_mono_r; lia).
  change (2 ^ 8)%Z with 256%Z in *. lia.
Qed.

Lemma slice_length a b (s : str) : length (slice a b s) <= b - a.
Proof. unfold slice. rewrite length_firstn. lia. Qed.

(** * The properties of the specification *)

(** [Decode(Encode(S))]: what a caller gets who decodes the string that
    [Encode] returned for the file [S]. *)
Definition Decode_of_Encode (self : HuffmanCode) (file : list byte)
  : result str :=
  do p <- Encode self file ;
  Decode (fst p).

(** The file of the bytes of the word abracadabra. *)
Definition abracadabra : list byte :=
  [x61; x62; x72; x61; x63; x61; x64; x61; x62; x72; x61].

(** C1. The round trip [Decode(Encode(S)) == S] is claimed for every byte
    sequence, the empty one and the one-valued ones included. On those the
    code does not return: for the empty file and for every file that
    repeats one byte value, [Encode] raises [IndexError] on line 86 or 87,
    so there is nothing to decode. *)
Theorem roundtrip_fails_on_degenerate_files (self : HuffmanCode) :
  Decode_of_Encode self [] = Err IndexError /\
  forall b n, Decode_of_Encode self (repeat b (S n)) = Err IndexError.
Proof.
  unfold Decode_of_Encode. split.
  - reflexivity.
  - intros b n. rewrite Encode_few_symbols; [reflexivity|].
    apply (symbols_one_value _ b). intros x Hx. now apply repeat_spec in Hx.
Qed.

(** C2. A file with exactly one distinct byte value (for instance 1000
    times the byte 0x41) should encode with the one-entry table that maps
    the symbol to the codeword 0. The code has no such case: the frequency
    table has one entry, the loop does not run, line 86 assigns 0 to the
    symbol and line 87 indexes [freqs[1]], which raises [IndexError]. *)
Theorem Encode_single_symbol_file (self : HuffmanCode) (b : byte) (n : nat) :
  length (make_frequency_tuples (read_bytes (repeat b (S n)))) = 1 /\
  create_encoder_dictionary self
    (make_frequency_tuples (read_bytes (repeat b (S n)))) = Err IndexError /\
  Encode self (repeat b (S n)) = Err IndexError.
Proof.
  assert (Hlt : length (symbols (repeat b (S n))) < 2).
  { apply (symbols_one_value _ b). intros x Hx. now apply repeat_spec in Hx. }
  assert (Hpos : In (byte_bin b) (symbols (repeat b (S n)))).
  { apply symbols_spec. exists b. split; [now left | reflexivity]. }
  assert (Hl : length (make_frequency_tuples (read_bytes (repeat b (S n)))) = 1).
  { unfold symbols, names in Hlt, Hpos. rewrite length_map in Hlt.
    destruct (make_frequency_tuples (read_bytes (repeat b (S n))));
      [destruct Hpos | simpl in *; lia]. }
  split; [exact Hl|]. split.
  - apply create_encoder_dictionary_short. lia.
  - now apply Encode_few_symbols.
Qed.

(** C4. The empty file should be rejected by a check of its own or be given
    a degenerate output. The code has neither: the frequency table is
    empty, the loop does not run, and line 86 indexes [freqs[0]], which
    raises [IndexError]; no string is returned. *)
Theorem Encode_empty_file (self : HuffmanCode) :
  make_frequency_tuples (read_bytes []) = [] /\
  create_encoder_dictionary self [] = Err IndexError /\
  Encode self [] = Err IndexError.
Proof. repeat split. Qed.

(** C5. The table the builder returns for a file is prefix-free, gives
    every byte value of the file exactly one codeword, and holds no
    placeholder: every key is the binary string of a byte of the file and
    every codeword is a string of bits. *)
Theorem code_table_prefix_free (self : HuffmanCode) (file : list byte)
    (T : dict str) :
  codesnames self = codesnames init ->
  create_encoder_dictionary self (make_frequency_tuples (read_bytes file))
    = Ok T ->
  prefix_free T /\
  (forall b, In b file ->
     exists c, In (byte_bin b, c) T /\
               forall c', In (byte_bin b, c') T -> c' = c) /\
  (forall k v, In (k, v) T ->
     (exists b, In b file /\ k = byte_bin b) /\
     re_match_pat k = None /\ is_bits v /\ re_match_pat v = None).
Proof.
  intros Hself HT.
  destruct (Nat.lt_ge_cases (length (symbols file)) 2) as [Hlt|Hge].
  - rewrite create_encoder_dictionary_short in HT; [discriminate|].
    unfold symbols, names in Hlt. now rewrite length_map in Hlt.
  - destruct (create_encoder_dictionary_spec self
                (make_frequency_tuples (read_bytes file)) Hself)
      as (T' & HT' & G).
    + apply symbols_spec.
    + apply symbols_real.
    + pose proof (symbols_length file). unfold symbols, names in *.
      rewrite length_map in *. lia.
    + rewrite HT in HT'. injection HT' as <-.
      fold (symbols file) in G. destruct (symbols_spec file) as [NDs Hs].
      destruct G as (NDk & Hk & Hv & PF).
      split; [exact PF|]. split.
      * intros b Hb.
        assert (Hin : In (byte_bin b) (dict_keys T)) by (apply Hk, Hs; eauto).
        unfold dict_keys in Hin. apply in_map_iff in Hin.
        destruct Hin as ([k c] & Hkc & Hin). simpl in Hkc. subst k.
        exists c. split; [exact Hin|]. intros c' Hin'.
        apply (In_dict_get T _ _ NDk) in Hin, Hin'. congruence.
      * intros k v Hin.
        assert (Hkk : In k (dict_keys T)) by (apply (in_map fst) in Hin; exact Hin).
        apply Hk in Hkk. pose proof (symbols_real file k Hkk) as Hr.
        apply Hs in Hkk. destruct (Hv k v Hin) as [Hb _].
        repeat split; auto. now apply re_match_bits.
Qed.

Lemma code_table_prefix_free_witness :
  exists T,
    create_encoder_dictionary init
      (make_frequency_tuples (read_bytes abracadabra)) = Ok T /\
    prefix_free T.
Proof.
  destruct (create_encoder_dictionary init
              (make_frequency_tuples (read_bytes abracadabra)))
    as [T|e] eqn:E; [|vm_compute in E; discriminate E].
  exists T. split; [reflexivity|].
  exact (proj1 (code_table_prefix_free init abracadabra T eq_refl E)).
Defined.

(** C6. For a table of 1 to 256 symbols with codewords of 1 to 255 bits
    that are pairwise distinct, parsing the header that [make_header]
    wrote, behind any padding byte, gives the decode map that is the exact
    inverse of the table (codeword to symbol, no other entry), consumes
    exactly the padding byte and the header, and leaves the payload. *)
Theorem parse_header_make_header (T : dict str) (bin_string : str)
    (pad : Z) (rest : str) :
  1 <= length T <= 256 ->
  (forall k v, In (k, v) T -> length k = 8 /\ 1 <= length v <= 255) ->
  NoDup (map snd T) ->
  (0 <= pad < 256)%Z ->
  exists header,
    make_header bin_string T = Ok header /\
    parse_header (bits8 pad ++ header ++ rest) =
      Ok (pad, {| h_code2symb := map swap T;
                  h_head := bits8 pad ++ header;
                  h_bin := rest |}) /\
    (forall c s, dict_get (map swap T) c = Some s <-> In (s, c) T).
Proof.
  intros Hl Hlen ND Hpad.
  assert (Hlen' : forall k v, In (k, v) T -> length k = 8 /\ length v < 256).
  { intros k v H. apply Hlen in H. lia. }
  exists (bits8 (Z.of_nat (length T) - 1) ++ flat_map entry_bits T).
  split; [|split].
  - apply make_header_ok; [exact Hl|]. intros k v H. apply Hlen' in H. lia.
  - now apply parse_header_ok.
  - intros c s. now apply swap_lookup.
Qed.

(** A table of two symbols, with the codewords 0 and 1. *)
Definition table_AB : dict str :=
  [(lit "01000001", lit "0"); (lit "01000010", lit "1")].

Lemma parse_header_make_header_witness :
  exists header,
    make_header [] table_AB = Ok header /\
    parse_header (bits8 3 ++ header ++ lit "01000") =
      Ok (3%Z, {| h_code2symb := map swap table_AB;
                  h_head := bits8 3 ++ header;
                  h_bin := lit "01000" |}).
Proof.
  destruct (parse_header_make_header table_AB [] 3 (lit "01000"))
    as (header & H1 & H2 & _).
  - simpl. lia.
  - intros k v [E|[E|[]]]; injection E as <- <-; simpl; lia.
  - apply nodupb_sound. vm_compute. reflexivity.
  - lia.
  - exists header. split; assumption.
Defined.

(** C7. When [Encode] returns, the padding count is
    [8 - total_bits mod 8], where [total_bits] counts the header and the
    codewords; it lies between 1 and 8 (8 for an aligned stream), it is
    what the first byte holds and the number of zeros appended, and the
    returned string has a multiple of 8 bits. *)
Theorem Encode_padding (self : HuffmanCode) (file : list byte) (enc : str)
    (self' : HuffmanCode) :
  Encode self file = Ok (enc, self') ->
  exists T header payload,
    encoder_dict self' = Some T /\
    orig_encoded_string self' = Some payload /\
    make_header payload T = Ok header /\
    let total_bits := length (header ++ payload) in
    let n_pad := 8 - total_bits mod 8 in
    1 <= n_pad <= 8 /\
    enc = bits8 (Z.of_nat n_pad) ++ (header ++ payload)
          ++ str_repeat "0"%char n_pad /\
    length enc = 8 + total_bits + n_pad /\
    length enc mod 8 = 0.
Proof.
  intros H. apply Encode_Ok_inv in H.
  destruct H as (T & payload & header & _ & _ & Hh & -> & ->).
  exists T, header, payload. cbn [encoder_dict orig_encoded_string encoded_instance].
  repeat split; auto.
  - apply pad_of_range.
  - apply pad_of_range.
  - apply framed_length.
  - rewrite framed_length. apply padded_length.
Qed.

Lemma Encode_padding_witness :
  exists enc self',
    Encode init abracadabra = Ok (enc, self') /\ length enc mod 8 = 0.
Proof.
  destruct (Encode init abracadabra) as [[enc self']|e] eqn:E;
    [|vm_compute in E; discriminate E].
  exists enc, self'. split; [reflexivity|].
  destruct (Encode_padding init abracadabra enc self' E)
    as (T & header & payload & _ & _ & _ & _ & _ & _ & H).
  exact H.
Defined.

(** C9. For a frequency table of at most 256 distinct symbols on which the
    builder returns, every codeword of the table has between 1 and 255
    bits and the table has at most 256 entries, so both numbers
    [make_header] writes fit in 8 bits: [BitArray(uint = n, length = 8)]
    does not raise and [make_header] returns. *)
Theorem codeword_length_fits_byte (self : HuffmanCode) (fr : freq_table)
    (T : dict str) :
  codesnames self = codesnames init ->
  NoDup (names fr) ->
  (forall x, In x (names fr) -> re_match_pat x = None) ->
  length fr <= 256 ->
  create_encoder_dictionary self fr = Ok T ->
  (forall k v, In (k, v) T ->
     1 <= length v <= 255 /\
     uint8_bin (Z.of_nat (length v)) = Ok (bits8 (Z.of_nat (length v)))) /\
  1 <= length T <= 256 /\
  forall bin_string, exists header, make_header bin_string T = Ok header.
Proof.
  intros Hself ND Hreal H256 HT.
  destruct (Nat.lt_ge_cases (length fr) 2) as [Hlt|Hge].
  - rewrite create_encoder_dictionary_short in HT by exact Hlt. discriminate.
  - destruct (create_encoder_dictionary_spec self fr Hself ND Hreal)
      as (T' & HT' & G); [lia|].
    rewrite HT in HT'. injection HT' as <-.
    pose proof (good_table_length _ _ ND G) as HlT.
    unfold names in HlT. rewrite length_map in HlT.
    destruct G as (_ & _ & Hv & _).
    assert (Hlen : forall k v, In (k, v) T -> 1 <= length v <= 255).
    { intros k v H. apply Hv in H. unfold names in H.
      rewrite length_map in H. lia. }
    split; [|split].
    + intros k v H. split; [now apply (Hlen k)|].
      apply uint8_bin_ok. specialize (Hlen k v H). lia.
    + lia.
    + intros bin_string. eexists. apply make_header_ok; [lia|].
      intros k v H. specialize (Hlen k v H). lia.
Qed.

Lemma codeword_length_fits_byte_witness :
  exists T,
    create_encoder_dictionary init
      (make_frequency_tuples (read_bytes abracadabra)) = Ok T /\
    1 <= length T <= 256.
Proof.
  destruct (create_encoder_dictionary init
              (make_frequency_tuples (read_bytes abracadabra)))
    as [T|e] eqn:E; [|vm_compute in E; discriminate E].
  exists T. split; [reflexivity|].
  refine (proj1 (proj2 (codeword_length_fits_byte init
                          (make_frequency_tuples (read_bytes abracadabra))
                          T eq_refl _ _ _ E))).
  - apply nodupb_sound. vm_compute. reflexivity.
  - intros x Hx. vm_compute in Hx.
    repeat (destruct Hx as [<-|Hx]; [reflexivity|]). destruct Hx.
  - vm_compute. lia.
Defined.

(** C10. [Encode] and [Decode] do not depend on earlier calls: whatever
    calls of [Encode] and [Decode] were made on the object before, and
    whatever they stored in it, [Encode] returns for a file what it returns
    on a new object, and the attribute it reads ([codesnames]) is the one
    [__init__] set. [Decode] is a static method, a function of its
    argument alone. *)
Theorem Encode_independent_of_earlier_calls (cs : list call)
    (file : list byte) :
  returned (Encode (after_calls init cs) file) = returned (Encode init file)
  /\ codesnames (after_calls init cs) = codesnames init.
Proof.
  split.
  - apply Encode_returned_codesnames, after_calls_codesnames.
  - apply after_calls_codesnames.
Qed.

(** What [Encode] returns for [abracadabra]: 17 bytes, the last of which
    holds the end of the payload and three padding bits. *)
Definition abracadabra_encoded : str :=
  lit "0000001100000100011000110000010000100110010000000100001101110010000000110000110001000000010010110000100000001110100010010100111010001000".

(** The same stream without its last byte. *)
Definition abracadabra_truncated : str :=
  firstn (length abracadabra_encoded - 8) abracadabra_encoded.

(** C3, as the claim states it, fails: [Decode] of the encoded
    [abracadabra] without its last byte ends the scan with the three bits
    001 in the buffer, which are no codeword, and returns the first six
    bytes of the file without any error. *)
Lemma Decode_truncated_returns_silently :
  returned (Encode init abracadabra) = Ok abracadabra_encoded /\
  (exists ph,
     parse_header abracadabra_truncated = Ok ph /\
     dict_get (h_code2symb (snd ph)) (lit "001") = None) /\
  Decode_scan abracadabra_truncated =
    Ok (lit "001", concat (read_bytes (firstn 6 abracadabra))) /\
  Decode abracadabra_truncated =
    Ok (concat (read_bytes (firstn 6 abracadabra))).
Proof.
  split; [vm_compute; reflexivity|].
  split; [eexists; split; vm_compute; reflexivity|].
  split; vm_compute; reflexivity.
Qed.

(** C3, amended. [Decode] has no check after the scan: for every input
    whose header parses and whose bit scan ends with a nonempty buffer that
    matches no codeword, [Decode] returns the symbols decoded before the
    buffer and raises nothing. *)
Theorem Decode_returns_despite_trailing_bits (s : str) (n_pad : Z)
    (st : header_state) (buf out : str) :
  parse_header s = Ok (n_pad, st) ->
  scan_bits (h_code2symb st) (remove_padding n_pad (h_bin st)) = (buf, out) ->
  buf <> [] ->
  dict_get (h_code2symb st) buf = None ->
  Decode s = Ok out.
Proof.
  intros Hp Hscan _ _. unfold Decode, Decode_scan.
  rewrite Hp. cbn [bind fst snd]. now rewrite Hscan.
Qed.

Lemma Decode_returns_despite_trailing_bits_witness :
  Decode abracadabra_truncated =
  Ok (concat (read_bytes (firstn 6 abracadabra))).
Proof.
  eapply (Decode_returns_despite_trailing_bits abracadabra_truncated
            3%Z _ (lit "001")).
  - lazy. reflexivity.
  - vm_compute. reflexivity.
  - discriminate.
  - vm_compute. reflexivity.
Defined.

(** X2. Streams with such a buffer exist for every table: when the payload of
    a well-formed stream is followed by the first bits [u] of a codeword,
    the scan ends with [u] in [symb_being_decoded], and [Decode] returns
    the symbols of the payload. *)
Theorem Decode_drops_incomplete_codeword (T : dict str) (bitlist : list str)
    (k u t : str) (pad : nat) :
  valid_table T ->
  (forall x, In x bitlist -> In x (dict_keys T)) ->
  In (k, u ++ t) T -> u <> [] -> t <> [] ->
  pad < 256 ->
  exists header payload,
    make_header payload T = Ok header /\
    encode_symbols T bitlist = Ok payload /\
    dict_get (map swap T) u = None /\
    Decode_scan (bits8 (Z.of_nat pad) ++ header ++ (payload ++ u)
                 ++ str_repeat "0"%char pad)
      = Ok (u, concat bitlist) /\
    Decode (bits8 (Z.of_nat pad) ++ header ++ (payload ++ u)
            ++ str_repeat "0"%char pad)
      = Ok (concat bitlist).
Proof.
  intros (NDk & PF & Hl & Hlen) Hin Hk Hu Ht Hpad.
  pose proof (prefix_free_codes_nodup T NDk PF) as NDc.
  assert (Hne : forall k v, In (k, v) T -> v <> []).
  { intros k' v H E. apply Hlen in H. subst v. simpl in H. lia. }
  assert (Hlen' : forall k v, In (k, v) T -> length k = 8 /\ length v < 256).
  { intros k' v H. apply Hlen in H. lia. }
  destruct (encode_scan T NDk NDc PF Hne bitlist Hin)
    as (payload & Henc & _).
  pose proof (prefix_free_no_proper_prefix T k (u ++ t) NDk NDc PF Hk) as Hnp.
  assert (Hscan : Decode_scan
            (bits8 (Z.of_nat pad)
             ++ (bits8 (Z.of_nat (length T) - 1) ++ flat_map entry_bits T)
             ++ (payload ++ u) ++ str_repeat "0"%char pad)
          = Ok (u, concat bitlist)).
  { rewrite Decode_scan_stream; auto; [|apply repeat_length].
    rewrite (scan_bits_encoded T bitlist payload NDk PF Hne Hin Henc).
    rewrite scan_partial; [reflexivity|].
    intros u1 u2 -> Hu1. cbn [app]. apply (Hnp u1 (u2 ++ t)).
    - now rewrite <- app_assoc.
    - exact Hu1.
    - destruct u2; [exact Ht | discriminate]. }
  exists (bits8 (Z.of_nat (length T) - 1) ++ flat_map entry_bits T), payload.
  split; [|split; [|split; [|split]]].
  - apply make_header_ok; [exact Hl|]. intros k' v H. apply Hlen' in H. lia.
  - exact Henc.
  - now apply (Hnp u t).
  - exact Hscan.
  - unfold Decode. rewrite Hscan. reflexivity.
Qed.

(** A prefix-free table of three symbols. *)
Definition table_ABC : dict str :=
  [(lit "01000001", lit "0"); (lit "01000010", lit "10");
   (lit "01000011", lit "11")].

Lemma Decode_drops_incomplete_codeword_witness :
  exists header payload,
    make_header payload table_ABC = Ok header /\
    Decode (bits8 3 ++ header ++ (payload ++ lit "1") ++ str_repeat "0"%char 3)
      = Ok (lit "01000001" ++ lit "01000010").
Proof.
  destruct (Decode_drops_incomplete_codeword table_ABC
              [lit "01000001"; lit "01000010"]
              (lit "01000011") (lit "1") (lit "1") 3)
    as (header & payload & H1 & _ & _ & _ & H2).
  - apply valid_tableb_sound. vm_compute. reflexivity.
  - intros x [<-|[<-|[]]]; vm_compute; auto.
  - vm_compute. auto.
  - discriminate.
  - discriminate.
  - lia.
  - exists header, payload. split; [exact H1 | exact H2].
Defined.

(** A stream whose header lists the entries of [T] and then one more
    symbol [symb] with the declared codeword length [n], followed by the
    bits [rest]. *)
Definition stream_with_last_entry (pad : Z) (T : dict str) (symb : str)
    (n : Z) (rest : str) : str :=
  bits8 pad ++ bits8 (Z.of_nat (length T))
  ++ flat_map entry_bits T ++ symb ++ bits8 n ++ rest.

(** A stream of five bytes: no padding, one symbol (the byte 0x41) with a
    declared codeword length of 255 bits, and 8 bits after it. *)
Definition overlong_stream : str :=
  stream_with_last_entry 0 [] (lit "01000001") 255 (lit "00000000").

(** C8, as the claim states it, fails: the header of [overlong_stream]
    (the bytes 00 00 41 FF 00) declares 255 codeword bits where 8 are
    left; [Decode] takes the 8 bits as the codeword, goes on with that
    decode map and returns the empty string. *)
Lemma Decode_overlong_returns_silently :
  overlong_stream =
    lit "0000000000000000010000011111111100000000" /\
  parse_header overlong_stream =
    Ok (0%Z, {| h_code2symb := [(lit "00000000", lit "01000001")];
                h_head := overlong_stream;
                h_bin := [] |}) /\
  Decode overlong_stream = Ok [].
Proof. repeat split; vm_compute; reflexivity. Qed.

Lemma parse_entries_app n m : forall st,
  parse_entries (n + m) st =
  do st' <- parse_entries n st ; parse_entries m st'.
Proof.
  induction n as [|n IH]; intros st; [reflexivity|].
  cbn [Nat.add parse_entries].
  destruct (parse_entry st); cbn [bind]; [apply IH | reflexivity].
Qed.

(** The body of the header loop on an entry that declares more codeword
    bits than are left: no exception, the remaining bits are the codeword. *)
Lemma parse_entry_overlong (st : header_state) (symb : str) (n : Z)
    (rest : str) :
  h_bin st = symb ++ bits8 n ++ rest ->
  length symb = 8 -> (0 <= n < 256)%Z -> (Z.of_nat (length rest) < n)%Z ->
  parse_entry st =
  Ok {| h_code2symb := dict_set (h_code2symb st) rest symb;
        h_head := h_head st ++ symb ++ bits8 n ++ rest;
        h_bin := [] |}.
Proof.
  intros Hb Hs Hn Hrest. unfold parse_entry. rewrite Hb.
  assert (F0 : slice 0 8 (symb ++ bits8 n ++ rest) = symb).
  { unfold slice. cbn [skipn]. now apply firstn_exact. }
  assert (F8 : slice 8 16 (symb ++ bits8 n ++ rest) = bits8 n).
  { unfold slice. rewrite skipn_exact by exact Hs. now apply firstn_exact. }
  assert (F16 : slice 16 (16 + Z.to_nat n) (symb ++ bits8 n ++ rest) = rest).
  { unfold slice. rewrite (app_assoc symb), skipn_exact
      by (rewrite length_app, Hs; reflexivity).
    apply firstn_all2. lia. }
  rewrite F0, F8, bin_uint_bits8 by lia. cbn [bind]. rewrite F16.
  rewrite firstn_all2 by (rewrite !length_app, Hs, bits8_length; lia).
  rewrite skipn_all2 by (rewrite !length_app, Hs, bits8_length; lia).
  reflexivity.
Qed.

(** C8, amended. [Decode] does not validate the header. The declared
    symbol count is one byte plus one, so it is at most 256. A declared
    codeword length above the number of remaining bits raises nothing: the
    slice of line 160 is shorter, the remaining bits become the codeword
    in the decode map, and with that entry last in the header [Decode]
    goes on and returns the empty string. *)
Theorem Decode_accepts_overlong_codeword (T : dict str) (pad n : Z)
    (symb rest : str) :
  length T <= 255 ->
  (forall k v, In (k, v) T -> length k = 8 /\ length v < 256) ->
  NoDup (map snd T) ->
  (0 <= pad < 256)%Z -> (0 <= n < 256)%Z ->
  length symb = 8 -> (Z.of_nat (length rest) < n)%Z ->
  parse_header (stream_with_last_entry pad T symb n rest) =
    Ok (pad, {| h_code2symb := dict_set (map swap T) rest symb;
                h_head := stream_with_last_entry pad T symb n rest;
                h_bin := [] |}) /\
  Decode (stream_with_last_entry pad T symb n rest) = Ok [] /\
  forall s v, bin_uint (slice 8 16 s) = Ok v -> (v + 1 <= 256)%Z.
Proof.
  intros Hl Hlen ND Hpad Hn Hs Hrest.
  assert (Hparse :
    parse_header (stream_with_last_entry pad T symb n rest) =
    Ok (pad, {| h_code2symb := dict_set (map swap T) rest symb;
                h_head := stream_with_last_entry pad T symb n rest;
                h_bin := [] |})).
  { unfold parse_header, stream_with_last_entry.
    set (body := flat_map entry_bits T ++ symb ++ bits8 n ++ rest).
    assert (E0 : slice 0 8 (bits8 pad ++ bits8 (Z.of_nat (length T)) ++ body)
                 = bits8 pad).
    { unfold slice. cbn [skipn]. now apply firstn_exact. }
    assert (E8 : slice 8 16 (bits8 pad ++ bits8 (Z.of_nat (length T)) ++ body)
                 = bits8 (Z.of_nat (length T))).
    { unfold slice. rewrite skipn_exact by reflexivity. now apply firstn_exact. }
    rewrite E0, E8, !bin_uint_bits8 by lia. cbn [bind].
    replace (Z.to_nat (Z.of_nat (length T) + 1)) with (length T + 1) by lia.
    rewrite parse_entries_app.
    rewrite (app_assoc (bits8 pad)), skipn_exact by reflexivity.
    rewrite firstn_exact by reflexivity.
    unfold body.
    rewrite (parse_entries_ok T _ (symb ++ bits8 n ++ rest) Hlen ND);
      cbn [h_code2symb h_head h_bin];
      [ | intros k v _ [] | reflexivity].
    cbn [bind parse_entries app].
    rewrite (parse_entry_overlong _ symb n rest);
      [ | reflexivity | exact Hs | exact Hn | exact Hrest].
    cbn [h_code2symb h_head h_bin bind].
    now rewrite <- !app_assoc. }
  split; [exact Hparse|]. split.
  - unfold Decode, Decode_scan. rewrite Hparse.
    cbn [bind fst snd h_bin h_code2symb]. unfold remove_padding.
    destruct (0 <? pad)%Z; reflexivity.
  - intros s v H. apply bin_uint_byte in H; [lia|].
    pose proof (slice_length 8 16 s). lia.
Qed.

Lemma Decode_accepts_overlong_codeword_witness :
  Decode (stream_with_last_entry 4 table_AB (lit "01000011") 200 (lit "0110"))
  = Ok [].
Proof.
  refine (proj1 (proj2 (Decode_accepts_overlong_codeword table_AB 4 200
                          (lit "01000011") (lit "0110") _ _ _ _ _ _ _))).
  - simpl. lia.
  - intros k v [E|[E|[]]]; injection E as <- <-; simpl; lia.
  - apply nodupb_sound. vm_compute. reflexivity.
  - lia.
  - lia.
  - reflexivity.
  - simpl. lia.
Defined.

(** X1. The round trip on the files [Encode] accepts: for every file with at
    least two different byte values, [Encode] returns and [Decode] of the
    returned string is the binary form of the file, byte after byte. *)
Theorem roundtrip_two_symbols (self : HuffmanCode) (file : list byte) :
  codesnames self = codesnames init ->
  two_symbols file ->
  Decode_of_Encode self file = Ok (concat (read_bytes file)).
Proof.
  intros Hself H2. unfold Decode_of_Encode.
  destruct (Decode_Encode self file Hself H2) as (enc & self' & -> & Hd).
  exact Hd.
Qed.

Lemma roundtrip_two_symbols_witness :
  Decode_of_Encode init abracadabra = Ok (concat (read_bytes abracadabra)).
Proof.
  apply roundtrip_two_symbols.
  - reflexivity.
  - exists x61, x62. simpl. repeat split; auto. discriminate.
Defined.

(** * Further properties of the code *)

(** ** [__init__]: the placeholder names *)

(** X3. [__init__] makes 256 placeholder names, pairwise distinct; the
    pattern matches each of them as a whole, also when bits follow it, and
    no name is the binary string of a byte, so a placeholder never collides
    with a symbol of a file. *)
Theorem init_codesnames_placeholders :
  length (codesnames init) = 256 /\
  NoDup (codesnames init) /\
  (forall x rest, In x (codesnames init) ->
     re_match_pat (x ++ rest) = Some x) /\
  (forall b, ~ In (byte_bin b) (codesnames init)).
Proof.
  split; [reflexivity|]. split; [|split].
  - unfold init, codesnames.
    assert (H : forall n l, NoDup l -> (forall i, In i l -> i < n) ->
                NoDup (map alpha_name l)).
    { intros n l ND _. induction ND as [|i l Hi ND IH]; simpl; constructor; auto.
      intros Hin. apply in_map_iff in Hin. destruct Hin as (j & E & Hj).
      apply alpha_name_inj in E. now subst j. }
    apply (H 256); [apply seq_NoDup | intros i Hi; apply in_seq in Hi; lia].
  - intros x rest Hx. apply in_map_iff in Hx. destruct Hx as (i & <- & _).
    apply re_match_alpha.
  - intros b Hin. apply in_map_iff in Hin. destruct Hin as (i & E & _).
    pose proof (byte_bin_real b) as Hr. rewrite <- E, re_match_alpha_name in Hr.
    discriminate.
Qed.

(** ** [make_frequency_tuples]: the counts *)

(** The number of occurrences of [x] in [l]. *)
Definition occurrences (x : str) (l : list str) : nat :=
  length (filter (str_eqb x) l).

Definition count_step (counts : dict Z) (x : str) : dict Z :=
  dict_set counts x
    ((match dict_get counts x with Some c => c | None => 0 end) + 1)%Z.

Lemma count_symbols_fold l : count_symbols l = fold_left count_step l [].
Proof. reflexivity. Qed.

Lemma count_fold_get (l : list str) : forall (acc : dict Z) x,
  dict_get (fold_left count_step l acc) x =
  match dict_get acc x with
  | Some c => Some (c + Z.of_nat (occurrences x l))%Z
  | None => if occurrences x l =? 0 then None
            else Some (Z.of_nat (occurrences x l))
  end.
Proof.
  induction l as [|y l IH]; intros acc x.
  - simpl. destruct (dict_get acc x); [f_equal; lia | reflexivity].
  - cbn [fold_left]. rewrite IH. unfold count_step at 1, occurrences.
    cbn [filter]. str_cases x y.
    + subst y. rewrite dict_get_set_same. cbn [length].
      destruct (dict_get acc x); cbn [Nat.eqb]; f_equal; lia.
    + rewrite dict_get_set_other by congruence. reflexivity.
Qed.

Lemma count_symbols_get l x :
  In x l ->
  dict_get (count_symbols l) x = Some (Z.of_nat (occurrences x l)).
Proof.
  intros Hin. rewrite count_symbols_fold, count_fold_get. simpl.
  destruct (Nat.eqb_spec (occurrences x l) 0) as [E|]; [|reflexivity].
  exfalso. unfold occurrences in E. apply length_zero_iff_nil in E.
  assert (H : In x (filter (str_eqb x) l))
    by (apply filter_In; split; [exact Hin | apply str_eqb_refl]).
  rewrite E in H. destruct H.
Qed.

Definition sum_values (d : dict Z) : Z := fold_left Z.add (map snd d) 0%Z.

Lemma fold_left_add_shift (l : list Z) : forall a,
  fold_left Z.add l a = (a + fold_left Z.add l 0)%Z.
Proof.
  induction l as [|x l IH]; intros a; simpl; [lia|].
  rewrite (IH (a + x)%Z), (IH x). lia.
Qed.

Lemma sum_values_cons k v d : sum_values ((k, v) :: d) = (v + sum_values d)%Z.
Proof. unfold sum_values. simpl. now rewrite fold_left_add_shift. Qed.

Lemma sum_values_set (d : dict Z) k v :
  sum_values (dict_set d k v) =
  (sum_values d - match dict_get d k with Some c => c | None => 0 end + v)%Z.
Proof.
  induction d as [|[k' v'] d IH]; simpl.
  - unfold sum_values. simpl. lia.
  - destruct (str_eqb k' k); rewrite !sum_values_cons; [lia|].
    rewrite IH. lia.
Qed.

Lemma count_fold_sum (l : list str) : forall acc,
  sum_values (fold_left count_step l acc) =
  (sum_values acc + Z.of_nat (length l))%Z.
Proof.
  induction l as [|y l IH]; intros acc; cbn [fold_left length]; [lia|].
  rewrite IH. unfold count_step. rewrite sum_values_set. lia.
Qed.

(** X4. The frequency table has, for every symbol of the input, exactly one
    entry, and its frequency is the number of occurrences of the symbol
    divided by the length of the input; it has no entry for anything
    else. *)
Theorem make_frequency_tuples_counts (binary_list : list str) (x : str) :
  In x binary_list ->
  In (int_truediv (Z.of_nat (occurrences x binary_list))
                  (Z.of_nat (length binary_list)), x)
     (make_frequency_tuples binary_list) /\
  (forall w w', In (w, x) (make_frequency_tuples binary_list) ->
                In (w', x) (make_frequency_tuples binary_list) -> w = w') /\
  (forall w y, In (w, y) (make_frequency_tuples binary_list) ->
               In y binary_list).
Proof.
  intros Hin.
  destruct (make_frequency_tuples_spec binary_list) as [ND Hn].
  split; [|split].
  - unfold make_frequency_tuples.
    apply (Permutation_in _ (Permutation_sym (sort_desc_perm _))).
    rewrite map_map. cbn [fst snd].
    assert (Htot : fold_left Z.add
              (map fst (map (fun kv : str * Z => (snd kv, fst kv))
                          (count_symbols binary_list))) 0%Z
            = Z.of_nat (length binary_list)).
    { rewrite map_map. cbn [fst].
      change (sum_values (count_symbols binary_list)
              = Z.of_nat (length binary_list)).
      rewrite count_symbols_fold, count_fold_sum. reflexivity. }
    rewrite Htot. apply in_map_iff.
    exists (x, Z.of_nat (occurrences x binary_list)). split; [reflexivity|].
    apply dict_get_Some_In. now apply count_symbols_get.
  - intros w w' H1 H2.
    assert (G : forall fr : freq_table, NoDup (names fr) ->
              In (w, x) fr -> In (w', x) fr -> w = w').
    { clear. induction fr as [|[w0 y] fr IH]; simpl; [tauto|].
      intros ND [E1|H1] [E2|H2]; inversion ND as [|? ? Hni ND']; subst.
      - congruence.
      - injection E1 as -> ->. exfalso. apply Hni.
        apply (in_map snd) in H2. exact H2.
      - injection E2 as -> ->. exfalso. apply Hni.
        apply (in_map snd) in H1. exact H1.
      - auto. }
    exact (G _ ND H1 H2).
  - intros w y H. apply Hn. apply (in_map snd) in H. exact H.
Qed.

Lemma make_frequency_tuples_counts_witness :
  In (int_truediv 5 11, byte_bin x61)
     (make_frequency_tuples (read_bytes abracadabra)).
Proof.
  refine (proj1 (make_frequency_tuples_counts (read_bytes abracadabra)
                   (byte_bin x61) _)).
  vm_compute. auto.
Defined.

(** ** [update_dictionary]: what the pass leaves alone *)








(** ** [create_encoder_dictionary]: when it returns *)

Lemma merge_step_ptr self st st' :
  merge_step self st = Ok st' ->
  b_ptr st' = S (b_ptr st) /\ b_ptr st < length (codesnames self).
Proof.
  unfold merge_step, list_at. intros H.
  destruct (nth_error _ 0); cbn [bind] in H; [|discriminate].
  destruct (nth_error _ 1); cbn [bind] in H; [|discriminate].
  destruct (nth_error (codesnames self) _) eqn:E; cbn [bind] in H;
    [|discriminate].
  injection H as <-. split; [reflexivity|].
  apply nth_error_Some. congruence.
Qed.

(** The loop takes one name of [codesnames] per turn: a table that needs
    more turns than there are names runs into [self.codesnames[ptr]] past
    the end of the list. *)
Lemma merge_loop_overflow self fuel : forall st,
  b_ptr st <= length (codesnames self) ->
  length (codesnames self) + 3 <= length (b_freqs st) + b_ptr st ->
  length (b_freqs st) <= fuel ->
  merge_loop self fuel st = Err IndexError.
Proof.
  induction fuel as [|fuel IH]; intros st Hp Hover Hf; [lia|].
  cbn [merge_loop].
  destruct (Nat.ltb_spec 2 (length (b_freqs st))) as [Hlt|Hge]; [|lia].
  destruct (merge_step self st) as [st'|e] eqn:E; cbn [bind].
  - pose proof (merge_step_length self st st' E ltac:(lia)).
    destruct (merge_step_ptr self st st' E) as [Hp' Hlt'].
    apply IH; lia.
  - apply merge_step_error in E. now subst e.
Qed.

Lemma create_encoder_dictionary_overflow self fr :
  length (codesnames self) + 2 < length fr ->
  create_encoder_dictionary self fr = Err IndexError.
Proof.
  intros H. unfold create_encoder_dictionary.
  rewrite merge_loop_overflow; cbn [b_freqs b_ptr bind]; auto; lia.
Qed.

(** X6. For a frequency table of distinct symbols, none of which looks like
    a placeholder, the builder returns exactly when the table has between
    2 and 258 entries, and then with a prefix-free table of as many entries
    (one codeword of 1 to n - 1 bits per symbol); with fewer entries line
    86 or 87, and with more entries [self.codesnames[ptr]] on line 80,
    raises [IndexError]. No other exception is raised. *)
Theorem create_encoder_dictionary_outcome (self : HuffmanCode)
    (fr : freq_table) :
  codesnames self = codesnames init ->
  NoDup (names fr) ->
  (forall x, In x (names fr) -> re_match_pat x = None) ->
  (2 <= length fr <= 258 /\
   exists T, create_encoder_dictionary self fr = Ok T /\
             good_table (names fr) T /\ length T = length fr) \/
  ((length fr < 2 \/ 258 < length fr) /\
   create_encoder_dictionary self fr = Err IndexError).
Proof.
  intros Hself ND Hreal.
  destruct (Nat.lt_ge_cases (length fr) 2) as [Hlt|Hge].
  - right. split; [now left|]. now apply create_encoder_dictionary_short.
  - destruct (Nat.lt_ge_cases 258 (length fr)) as [Hbig|Hle].
    + right. split; [now right|]. apply create_encoder_dictionary_overflow.
      rewrite Hself. exact Hbig.
    + left. split; [lia|].
      destruct (create_encoder_dictionary_spec self fr Hself ND Hreal)
        as (T & HT & G); [lia|].
      exists T. split; [exact HT|]. split; [exact G|].
      rewrite (good_table_length _ _ ND G). apply length_map.
Qed.

Lemma create_encoder_dictionary_outcome_witness :
  exists T,
    create_encoder_dictionary init
      (make_frequency_tuples (read_bytes abracadabra)) = Ok T /\
    length T = 5.
Proof.
  destruct (create_encoder_dictionary_outcome init
              (make_frequency_tuples (read_bytes abracadabra)) eq_refl)
    as [(_ & T & HT & _ & Hl) | (_ & E)].
  - apply nodupb_sound. vm_compute. reflexivity.
  - intros x Hx. vm_compute in Hx.
    repeat (destruct Hx as [<-|Hx]; [reflexivity|]). destruct Hx.
  - exists T. split; [exact HT | exact Hl].
  - vm_compute in E. discriminate E.
Defined.

(** ** [make_header]: when it returns *)

(** The table has between 1 and 256 entries and every codeword has fewer
    than 256 characters. *)
Definition header_fits (T : dict str) : bool :=
  (1 <=? length T) && (length T <=? 256)
  && forallb (fun e => length (snd e) <? 256) T.

Lemma uint8_bin_err n :
  (n < 0 \/ 256 <= n)%Z -> uint8_bin n = Err CreationError.
Proof.
  intros H. unfold uint8_bin.
  destruct (Z.leb_spec 0 n); destruct (Z.ltb_spec n 256);
    try reflexivity; lia.
Qed.

Lemma header_entries_err (T : dict str) :
  forallb (fun e => length (snd e) <? 256) T = false ->
  header_entries T = Err CreationError.
Proof.
  induction T as [|[k v] T IH]; [discriminate|].
  cbn [forallb header_entries snd]. intros H.
  destruct (Nat.ltb_spec (length v) 256) as [Hv|Hv].
  - rewrite uint8_bin_ok by lia. cbn [bind]. rewrite IH by exact H.
    reflexivity.
  - rewrite uint8_bin_err by lia. reflexivity.
Qed.

(** X7. [make_header] returns exactly for the tables of 1 to 256 entries
    whose codewords have at most 255 characters: one byte for the number
    of entries minus one, then for every entry, in the order of the dict,
    the key, one byte for the length of the codeword, and the codeword.
    For every other table (the empty one, one with more than 256 entries
    or with a longer codeword) [BitArray(uint = ..., length = 8)] raises
    [CreationError]. The argument [bin_string] is not used. *)
Theorem make_header_outcome (bin_string : str) (T : dict str) :
  make_header bin_string T =
  if header_fits T
  then Ok (bits8 (Z.of_nat (length T) - 1) ++ flat_map entry_bits T)
  else Err CreationError.
Proof.
  unfold header_fits.
  destruct (Nat.leb_spec 1 (length T)) as [H1|H1]; cbn [andb].
  - destruct (Nat.leb_spec (length T) 256) as [H2|H2]; cbn [andb].
    + match goal with
      | |- context [forallb ?f T] => destruct (forallb f T) eqn:Hf
      end.
      * apply make_header_ok; [lia|]. intros k v Hin.
        rewrite forallb_forall in Hf. specialize (Hf _ Hin).
        now apply Nat.ltb_lt in Hf.
      * unfold make_header. rewrite uint8_bin_ok by lia. cbn [bind].
        now rewrite header_entries_err.
    + unfold make_header. rewrite uint8_bin_err by lia. reflexivity.
  - unfold make_header. rewrite uint8_bin_err by lia. reflexivity.
Qed.

(** ** [Decode] on strings of bits *)

Lemma is_bits_firstn n (s : str) : is_bits s -> is_bits (firstn n s).
Proof.
  unfold is_bits. rewrite !Forall_forall. intros H x Hx.
  apply H. eapply In_nth_error in Hx. destruct Hx as [i Hi].
  apply nth_error_In with (n := i).
  rewrite nth_error_firstn in Hi. destruct (i <? n); [exact Hi | discriminate].
Qed.

Lemma is_bits_skipn n (s : str) : is_bits s -> is_bits (skipn n s).
Proof.
  intros H. rewrite <- (firstn_skipn n s) in H.
  unfold is_bits in *. apply Forall_app in H. tauto.
Qed.

Lemma is_bits_slice a b (s : str) : is_bits s -> is_bits (slice a b s).
Proof. intros H. unfold slice. now apply is_bits_firstn, is_bits_skipn. Qed.

Lemma bin_value_bits (s : str) : forall acc,
  is_bits s -> exists v, bin_value acc s = Ok v.
Proof.
  induction s as [|c s IH]; intros acc H; [now exists acc|].
  inversion H as [|? ? Hc Hs]; subst. cbn [bin_value].
  destruct Hc as [-> | ->]; cbn; now apply IH.
Qed.

Lemma bin_uint_bits (s : str) :
  is_bits s ->
  (s = [] /\ bin_uint s = Err InterpretError) \/
  (s <> [] /\ exists v, bin_uint s = Ok v /\ (0 <= v)%Z).
Proof.
  intros H. unfold bin_uint.
  destruct (bin_value_bits s 0 H) as [v Hv]. rewrite Hv. cbn [bind].
  destruct s; [left; auto | right].
  split; [discriminate|]. exists v. split; [reflexivity|].
  apply bin_value_bound in Hv.
  pose proof (Z.pow_nonneg 2 (Z.of_nat (length (a :: s))) ltac:(lia)). lia.
Qed.

(** The strings [Decode] works on are strings of bits. *)
Definition bits_state (st : header_state) : Prop :=
  is_bits (h_bin st) /\
  forall c s, In (c, s) (h_code2symb st) -> is_bits s.

Lemma dict_set_In {V} (d : dict V) k v k' v' :
  In (k', v') (dict_set d k v) -> In (k', v') d \/ (k' = k /\ v' = v).
Proof.
  induction d as [|[k0 v0] d IH]; simpl.
  - intros [[= <- <-]|[]]. auto.
  - str_cases k0 k; simpl.
    + intros [[= <- <-]|H]; auto.
    + intros [H|H]; auto. destruct (IH H); auto.
Qed.

Lemma parse_entry_bits (st : header_state) :
  bits_state st ->
  (exists st', parse_entry st = Ok st' /\ bits_state st') \/
  parse_entry st = Err InterpretError.
Proof.
  intros [Hb Hm]. unfold parse_entry.
  destruct (bin_uint_bits (slice 8 16 (h_bin st)))
    as [(_ & E) | (_ & v & E & _)]; [now apply is_bits_slice | | ];
    rewrite E; cbn [bind]; [now right | left].
  eexists. split; [reflexivity|]. split; cbn [h_bin h_code2symb].
  - now apply is_bits_skipn.
  - intros c s Hin. apply dict_set_In in Hin.
    destruct Hin as [Hin | [_ ->]]; [eauto | now apply is_bits_slice].
Qed.

Lemma parse_entries_bits (n : nat) : forall st,
  bits_state st ->
  (exists st', parse_entries n st = Ok st' /\ bits_state st') \/
  parse_entries n st = Err InterpretError.
Proof.
  induction n as [|n IH]; intros st H;
    [left; exists st; split; [reflexivity | exact H]|].
  cbn [parse_entries].
  destruct (parse_entry_bits st H) as [(st' & E & H') | E];
    rewrite E; cbn [bind]; [now apply IH | now right].
Qed.

Lemma parse_header_bits (s : str) :
  is_bits s ->
  (exists n_pad st, parse_header s = Ok (n_pad, st) /\ bits_state st) \/
  parse_header s = Err InterpretError.
Proof.
  intros H. unfold parse_header.
  destruct (bin_uint_bits (slice 0 8 s))
    as [(_ & E) | (_ & v & E & _)]; [now apply is_bits_slice | | ];
    rewrite E; cbn [bind]; [now right|].
  destruct (bin_uint_bits (slice 8 16 s))
    as [(_ & E') | (_ & v' & E' & _)]; [now apply is_bits_slice | | ];
    rewrite E'; cbn [bind]; [now right|].
  match goal with |- context [parse_entries ?n ?st0] =>
    destruct (parse_entries_bits n st0) as [(st' & Ep & Hs) | Ep]
  end.
  - split; cbn [h_bin h_code2symb]; [now apply is_bits_skipn | intros c x []].
  - rewrite Ep. cbn [bind]. left. eauto.
  - rewrite Ep. now right.
Qed.

Lemma scan_bits_output (D : dict str) (bits : str) :
  (forall c s, In (c, s) D -> is_bits s) ->
  forall st, is_bits (snd st) ->
  is_bits (snd (fold_left (scan_bit D) bits st)).
Proof.
  intros HD. induction bits as [|i bits IH]; intros st Hst; [exact Hst|].
  cbn [fold_left]. apply IH. unfold scan_bit.
  destruct (dict_get D (fst st ++ [i])) as [s|] eqn:E; cbn [snd]; [|exact Hst].
  apply is_bits_app; [exact Hst|]. apply dict_get_Some_In in E. eauto.
Qed.

(** The executable form of [is_bits]. *)
Definition is_bitsb (s : str) : bool :=
  forallb (fun c => Ascii.eqb c "0"%char || Ascii.eqb c "1"%char) s.

Lemma is_bitsb_spec (s : str) : is_bitsb s = true <-> is_bits s.
Proof.
  unfold is_bitsb, is_bits. rewrite forallb_forall, Forall_forall.
  split; intros H c Hc; specialize (H c Hc).
  - apply orb_true_iff in H. rewrite !Ascii.eqb_eq in H. exact H.
  - apply orb_true_iff. now rewrite !Ascii.eqb_eq.
Qed.

(** X8. On a string of the characters 0 and 1, [Decode] either returns a
    string of bits or raises [InterpretError] (from [BitArray(bin = '')
    .uint] on an empty slice of a header cut short); it raises nothing
    else, whatever the header declares. *)
Theorem Decode_outcome (encoded_bin_string : str) :
  is_bits encoded_bin_string ->
  (exists decoded_string,
     Decode encoded_bin_string = Ok decoded_string /\
     is_bits decoded_string) \/
  Decode encoded_bin_string = Err InterpretError.
Proof.
  intros H. unfold Decode, Decode_scan.
  destruct (parse_header_bits _ H) as [(n_pad & st & E & Hb & Hm) | E];
    rewrite E; cbn [bind fst snd]; [left | now right].
  eexists. split; [reflexivity|].
  apply scan_bits_output; [exact Hm | constructor].
Qed.

Lemma Decode_outcome_witness :
  (exists decoded_string,
     Decode abracadabra_truncated = Ok decoded_string /\
     is_bits decoded_string) \/
  Decode abracadabra_truncated = Err InterpretError.
Proof.
  apply Decode_outcome.
  apply is_bitsb_spec. vm_compute. reflexivity.
Defined.

(** X9. A stream holds at least the padding byte, the byte of the symbol
    count and one entry with its symbol and length bytes: on every string
    of fewer than 25 bits, the empty string included, [Decode] raises
    [InterpretError]. *)
Theorem Decode_short_stream (encoded_bin_string : str) :
  is_bits encoded_bin_string ->
  length encoded_bin_string < 25 ->
  Decode encoded_bin_string = Err InterpretError.
Proof.
  intros H Hl. unfold Decode, Decode_scan, parse_header.
  destruct (bin_uint_bits (slice 0 8 encoded_bin_string))
    as [(_ & E) | (_ & v & E & _)]; [now apply is_bits_slice | | ];
    rewrite E; cbn [bind]; [reflexivity|].
  destruct (bin_uint_bits (slice 8 16 encoded_bin_string))
    as [(_ & E') | (_ & v' & E' & Hv')]; [now apply is_bits_slice | | ];
    rewrite E'; cbn [bind]; [reflexivity|].
  destruct (Z.to_nat (v' + 1)) as [|n] eqn:En; [lia|].
  cbn [parse_entries]. unfold parse_entry at 1. cbn [h_bin].
  assert (Hempty : slice 8 16 (skipn 16 encoded_bin_string) = []).
  { unfold slice. apply length_zero_iff_nil.
    rewrite length_firstn, !length_skipn. lia. }
  rewrite Hempty. reflexivity.
Qed.

Lemma Decode_short_stream_witness :
  Decode (bits8 3 ++ bits8 0 ++ lit "01000001") = Err InterpretError.
Proof.
  apply Decode_short_stream.
  - apply is_bitsb_spec. vm_compute. reflexivity.
  - simpl. lia.
Defined.

(** ** [Compress] and [Decompress]: the bytes written *)

Definition bit_of (c : ascii) : bool := Ascii.eqb c "1"%char.

(** The byte of up to eight binary digits, most significant first; missing
    digits are zero bits. *)
Definition byte_of_chars (cs : str) : byte :=
  let b i := bit_of (nth i cs "0"%char) in
  byte_of_ascii (Ascii (b 7) (b 6) (b 5) (b 4) (b 3) (b 2) (b 1) (b 0)).

Fixpoint pack_bits (s : str) : list byte :=
  match s with
  | [] => []
  | c0 :: c1 :: c2 :: c3 :: c4 :: c5 :: c6 :: c7 :: rest =>
      byte_of_chars [c0; c1; c2; c3; c4; c5; c6; c7] :: pack_bits rest
  | _ :: _ => [byte_of_chars s]
  end.

(** [BitArray(bin = s).tofile(out)]: the bytes written for a string of the
    characters 0 and 1; the library pads the last byte with zero bits.
    Strings with other characters never reach this call ([Encode_bits],
    [Decode_outcome]); the model answers [CreationError] for them, as the
    library does for a character it cannot read as a bit. *)
Definition tofile (s : str) : result (list byte) :=
  if is_bitsb s then Ok (pack_bits s) else Err CreationError.

(** Lines 192 to 195 of [Compress]: the content of the compressed file for
    a source file of the given content. File names, directories, timing
    and printing are not modelled. *)
Definition Compress_content (self : HuffmanCode) (file : list byte)
  : result (list byte * HuffmanCode) :=
  do p <- Encode self file ;
  do out <- tofile (fst p) ;
  Ok (out, snd p).

(** Lines 217 to 227 of [Decompress]: the content of the decompressed file
    for a compressed file of the given content. *)
Definition Decompress_content (compressed_file : list byte)
  : result (list byte) :=
  let encoded_bin_string := concat (read_bytes compressed_file) in
  do decoded_string <- Decode encoded_bin_string ;
  tofile decoded_string.

Lemma byte_of_chars_byte_bin (b : byte) : byte_of_chars (byte_bin b) = b.
Proof. destruct b; reflexivity. Qed.

Lemma byte_bin_byte_of_chars c0 c1 c2 c3 c4 c5 c6 c7 :
  is_bits [c0; c1; c2; c3; c4; c5; c6; c7] ->
  byte_bin (byte_of_chars [c0; c1; c2; c3; c4; c5; c6; c7])
  = [c0; c1; c2; c3; c4; c5; c6; c7].
Proof.
  intros H. unfold is_bits in H.
  repeat match goal with
         | H : Forall _ (_ :: _) |- _ =>
             let Hc := fresh "Hc" in
             apply Forall_cons_iff in H; destruct H as [Hc H];
             destruct Hc as [-> | ->]
         end;
    reflexivity.
Qed.

Lemma pack_bits_byte_bin (b : byte) (rest : str) :
  pack_bits (byte_bin b ++ rest) = b :: pack_bits rest.
Proof.
  rewrite <- (byte_of_chars_byte_bin b) at 2.
  unfold byte_bin, bits8. cbn [map app pack_bits]. reflexivity.
Qed.

Lemma pack_bits_read_bytes (bs : list byte) :
  pack_bits (concat (read_bytes bs)) = bs.
Proof.
  induction bs as [|b bs IH]; [reflexivity|].
  cbn [read_bytes map concat]. rewrite pack_bits_byte_bin.
  f_equal. exact IH.
Qed.

Lemma read_bytes_is_bits (bs : list byte) : is_bits (concat (read_bytes bs)).
Proof.
  induction bs as [|b bs IH]; [constructor|].
  cbn [read_bytes map concat]. apply is_bits_app; [apply byte_bin_is_bits|].
  exact IH.
Qed.

Lemma tofile_read_bytes (bs : list byte) :
  tofile (concat (read_bytes bs)) = Ok bs.
Proof.
  unfold tofile.
  rewrite (proj2 (is_bitsb_spec _) (read_bytes_is_bits bs)).
  now rewrite pack_bits_read_bytes.
Qed.

(** Reading back what [tofile] wrote for a whole number of bytes. *)
Lemma read_bytes_pack_bits (n : nat) : forall s : str,
  is_bits s -> length s = 8 * n ->
  concat (read_bytes (pack_bits s)) = s.
Proof.
  induction n as [|n IH]; intros s Hb Hl.
  - destruct s; [reflexivity | simpl in Hl; lia].
  - destruct s as [|c0 [|c1 [|c2 [|c3 [|c4 [|c5 [|c6 [|c7 rest]]]]]]]];
      try (simpl in Hl; lia).
    cbn [pack_bits read_bytes map concat].
    change (c0 :: c1 :: c2 :: c3 :: c4 :: c5 :: c6 :: c7 :: rest)
      with ([c0; c1; c2; c3; c4; c5; c6; c7] ++ rest) in Hb |- *.
    unfold is_bits in Hb. apply Forall_app in Hb. destruct Hb as [H8 Hr].
    rewrite byte_bin_byte_of_chars by exact H8. f_equal.
    apply IH; [exact Hr|]. simpl in Hl. lia.
Qed.

Lemma encode_symbols_bits (T : dict str) :
  (forall k v, In (k, v) T -> is_bits v) ->
  forall bitlist payload,
    encode_symbols T bitlist = Ok payload -> is_bits payload.
Proof.
  intros HT bitlist. induction bitlist as [|x l IH]; intros payload H.
  - injection H as <-. constructor.
  - cbn [encode_symbols] in H. unfold dict_at in H.
    destruct (dict_get T x) as [c|] eqn:E; cbn [bind] in H; [|discriminate].
    destruct (encode_symbols T l) as [tl|]; cbn [bind] in H; [|discriminate].
    injection H as <-. apply is_bits_app; [|now apply IH].
    apply dict_get_Some_In in E. eauto.
Qed.

Lemma entries_bits (T : dict str) :
  (forall k v, In (k, v) T -> is_bits k /\ is_bits v) ->
  is_bits (flat_map entry_bits T).
Proof.
  induction T as [|[k v] T IH]; intros H; [constructor|].
  cbn [flat_map]. unfold entry_bits at 1. cbn [fst snd].
  destruct (H k v (or_introl eq_refl)) as [Hk Hv].
  repeat apply is_bits_app; auto using bits8_is_bits.
  apply IH. intros; apply H; now right.
Qed.

Lemma framed_bits (header payload : str) :
  is_bits header -> is_bits payload -> is_bits (framed header payload).
Proof.
  intros Hh Hp. unfold framed.
  repeat apply is_bits_app; auto using bits8_is_bits.
  unfold str_repeat, is_bits. apply Forall_forall.
  intros c Hc. apply repeat_spec in Hc. now left.
Qed.

(** What [Encode] returns is a string of bits, a whole number of bytes
    long. *)
Lemma Encode_bits self file enc self' :
  codesnames self = codesnames init ->
  Encode self file = Ok (enc, self') ->
  is_bits enc /\ exists n, length enc = 8 * n.
Proof.
  intros Hself H.
  pose proof (Encode_Ok_inv _ _ _ _ H) as (T & payload & header & HT & Hp & Hh & -> & _).
  split.
  - destruct (Nat.lt_ge_cases (length (symbols file)) 2) as [Hlt|Hge].
    { rewrite (Encode_few_symbols self file Hlt) in H. discriminate. }
    destruct (create_encoder_dictionary_spec self
                (make_frequency_tuples (read_bytes file)) Hself)
      as (T' & HT' & G).
    + apply symbols_spec.
    + apply symbols_real.
    + pose proof (symbols_length file). unfold symbols, names in *.
      rewrite length_map in *. lia.
    + rewrite HT in HT'. injection HT' as <-. fold (symbols file) in G.
      pose proof (good_table_valid file T Hge G) as (_ & _ & Hl & Hlen).
      destruct G as (_ & Hk & Hv & _).
      assert (Hbits : forall k v, In (k, v) T -> is_bits k /\ is_bits v).
      { intros k v Hin. split; [|now apply (Hv k v)].
        assert (Hkk : In k (dict_keys T)) by (apply (in_map fst) in Hin; exact Hin).
        apply Hk, symbols_spec in Hkk. destruct Hkk as (b & _ & ->).
        apply byte_bin_is_bits. }
      rewrite make_header_ok in Hh;
        [|exact Hl | intros k v Hin; apply Hlen in Hin; lia].
      assert (Eh : header = bits8 (Z.of_nat (length T) - 1)
                            ++ flat_map entry_bits T) by congruence.
      rewrite Eh. apply framed_bits.
      * apply is_bits_app; [apply bits8_is_bits | now apply entries_bits].
      * eapply encode_symbols_bits; [|exact Hp]. intros k v Hin.
        now apply (Hbits k v).
  - rewrite framed_length.
    pose proof (padded_length (length (header ++ payload))) as Hm.
    exists ((8 + length (header ++ payload)
             + pad_of (length (header ++ payload))) / 8).
    pose proof (Nat.div_mod_eq
                  (8 + length (header ++ payload)
                   + pad_of (length (header ++ payload))) 8). lia.
Qed.

(** X10. The round trip through the files: for every source file with at
    least two different byte values, [Compress] returns, and [Decompress]
    of the bytes it wrote gives back the bytes of the source file. *)
Theorem Decompress_Compress (self : HuffmanCode) (file : list byte) :
  codesnames self = codesnames init ->
  two_symbols file ->
  exists compressed_file self',
    Compress_content self file = Ok (compressed_file, self') /\
    Decompress_content compressed_file = Ok file.
Proof.
  intros Hself H2.
  destruct (Decode_Encode self file Hself H2) as (enc & self' & HE & HD).
  destruct (Encode_bits self file enc self' Hself HE) as (Hb & n & Hn).
  exists (pack_bits enc), self'. split.
  - unfold Compress_content. rewrite HE. cbn [bind fst snd]. unfold tofile.
    now rewrite (proj2 (is_bitsb_spec _) Hb).
  - unfold Decompress_content.
    rewrite (read_bytes_pack_bits n enc Hb Hn), HD. cbn [bind].
    apply tofile_read_bytes.
Qed.

Lemma Decompress_Compress_witness :
  exists compressed_file self',
    Compress_content init abracadabra = Ok (compressed_file, self') /\
    Decompress_content compressed_file = Ok abracadabra.
Proof.
  apply Decompress_Compress.
  - reflexivity.
  - exists x61, x62. simpl. repeat split; auto. discriminate.
Defined.

Lemma two_symbols_of_length file :
  2 <= length (symbols file) -> two_symbols file.
Proof.
  intros Hl. destruct (symbols_spec file) as [ND Hs].
  destruct (symbols file) as [|x [|y r]] eqn:E; try (simpl in Hl; lia).
  destruct (proj1 (Hs x) (or_introl eq_refl)) as (b1 & H1 & ->).
  destruct (proj1 (Hs y) (or_intror (or_introl eq_refl))) as (b2 & H2 & ->).
  exists b1, b2. repeat split; auto.
  intros ->. inversion ND as [|? ? Hni _]; subst. apply Hni. now left.
Qed.

(** X11. [Encode] has two outcomes. For a file with at least two different
    byte values it returns a string of the characters 0 and 1; for any
    other file (the empty file, a file of one byte value) it raises
    [IndexError]. It raises nothing else: no [KeyError] from the table
    lookup of line 129, no [CreationError] from the header, and the
    [assert] of line 134 never fails. *)
Theorem Encode_outcome (self : HuffmanCode) (file : list byte) :
  codesnames self = codesnames init ->
  (two_symbols file /\
   exists enc self', Encode self file = Ok (enc, self') /\ is_bits enc) \/
  (~ two_symbols file /\ Encode self file = Err IndexError).
Proof.
  intros Hself.
  destruct (Nat.lt_ge_cases (length (symbols file)) 2) as [Hlt|Hge].
  - right. split; [|now apply Encode_few_symbols].
    intros H2. apply two_symbols_length in H2. lia.
  - left. pose proof (two_symbols_of_length file Hge) as H2.
    split; [exact H2|].
    destruct (Decode_Encode self file Hself H2) as (enc & self' & HE & _).
    exists enc, self'. split; [exact HE|].
    exact (proj1 (Encode_bits self file enc self' Hself HE)).
Qed.

Lemma Encode_outcome_witness :
  exists enc self', Encode init abracadabra = Ok (enc, self') /\ is_bits enc.
Proof.
  destruct (Encode_outcome init abracadabra eq_refl)
    as [(_ & H) | (_ & E)]; [exact H|].
  vm_compute in E. discriminate E.
Defined.

(** ** A compressed stream without its last byte *)

(** The scan over the first [m] bits of a payload: it decodes the symbols
    whose codewords are complete and ends inside the next codeword. *)
Lemma scan_prefix (T : dict str) :
  NoDup (dict_keys T) -> prefix_free T ->
  (forall k v, In (k, v) T -> v <> []) ->
  forall bitlist payload m out,
    (forall x, In x bitlist -> In x (dict_keys T)) ->
    encode_symbols T bitlist = Ok payload ->
    exists j buf,
      fold_left (scan_bit (map swap T)) (firstn m payload) ([], out)
      = (buf, out ++ concat (firstn j bitlist)) /\
      j <= length bitlist /\
      (m < length payload -> j < length bitlist).
Proof.
  intros NDk PF Hne.
  pose proof (prefix_free_codes_nodup T NDk PF) as NDc.
  intros bitlist.
  induction bitlist as [|x l IH]; intros payload m out Hin Henc.
  - injection Henc as <-. exists 0, []. rewrite firstn_nil. simpl.
    rewrite app_nil_r. repeat split; auto. lia.
  - cbn [encode_symbols] in Henc. unfold dict_at in Henc.
    destruct (dict_get T x) as [c|] eqn:E; cbn [bind] in Henc; [|discriminate].
    destruct (encode_symbols T l) as [pl|] eqn:El; cbn [bind] in Henc;
      [|discriminate].
    injection Henc as <-. apply dict_get_Some_In in E.
    pose proof (prefix_free_no_proper_prefix T x c NDk NDc PF E) as Hnp.
    pose proof (Hne _ _ E) as Hc.
    destruct (Nat.lt_ge_cases m (length c)) as [Hlt|Hge].
    + exists 0, (firstn m c). cbn [firstn concat].
      rewrite firstn_app. replace (m - length c) with 0 by lia.
      cbn [firstn]. rewrite !app_nil_r.
      split; [|split; [lia | simpl; lia]].
      match goal with
      | |- fold_left _ _ ?X = _ =>
          change X with (@nil ascii, out)
      end.
      rewrite scan_partial; [reflexivity|].
      intros u1 u2 Hu Hu1. cbn [app].
      apply (Hnp u1 (u2 ++ skipn m c)); [|exact Hu1|].
      * rewrite app_assoc, <- Hu. symmetry. apply firstn_skipn.
      * intros Hnil. apply app_eq_nil in Hnil. destruct Hnil as [_ Hs].
        apply (f_equal (@length ascii)) in Hs. rewrite length_skipn in Hs.
        simpl in Hs. lia.
    + destruct (IH pl (m - length c) (out ++ x)) as (j & buf & Hscan & Hj & Hjl).
      { intros; apply Hin; now right. }
      { reflexivity. }
      exists (S j), buf. cbn [firstn concat length].
      rewrite firstn_app, firstn_all2 by lia. rewrite fold_left_app.
      match goal with
      | |- fold_left _ _ (fold_left _ c ?X) = _ /\ _ =>
          assert (Hcw : fold_left (scan_bit (map swap T)) c X = ([], out ++ x))
      end.
      { apply (scan_codeword (map swap T) x c [] out); auto.
        apply swap_lookup; assumption. }
      rewrite Hcw, app_assoc.
      split; [exact Hscan|]. split; [lia|].
      rewrite length_app. intros Hm. apply -> Nat.succ_lt_mono.
      apply Hjl. lia.
Qed.

Lemma encode_symbols_length (T : dict str) :
  (forall k v, In (k, v) T -> v <> []) ->
  forall bitlist payload,
    encode_symbols T bitlist = Ok payload -> length bitlist <= length payload.
Proof.
  intros Hne bitlist. induction bitlist as [|x l IH]; intros payload H.
  - simpl. lia.
  - cbn [encode_symbols] in H. unfold dict_at in H.
    destruct (dict_get T x) as [c|] eqn:E; cbn [bind] in H; [|discriminate].
    destruct (encode_symbols T l) as [tl|] eqn:El; cbn [bind] in H;
      [|discriminate].
    injection H as <-. apply dict_get_Some_In in E. apply Hne in E.
    specialize (IH tl eq_refl). rewrite length_app. cbn [length].
    destruct c; [congruence | simpl; lia].
Qed.

(** The parts of what [Encode] returns for a file it accepts. *)
Lemma Encode_structure self file :
  codesnames self = codesnames init ->
  two_symbols file ->
  exists T payload self',
    valid_table T /\
    (forall x, In x (read_bytes file) -> In x (dict_keys T)) /\
    encode_symbols T (read_bytes file) = Ok payload /\
    Encode self file =
    Ok (framed (bits8 (Z.of_nat (length T) - 1) ++ flat_map entry_bits T)
          payload, self').
Proof.
  intros Hself H2.
  destruct (table_of_file self file Hself H2) as (T & HT & G).
  pose proof (good_table_valid file T (two_symbols_length file H2) G) as V.
  destruct (symbols_spec file) as [NDs Hs].
  assert (Hin : forall x, In x (read_bytes file) -> In x (dict_keys T)).
  { destruct G as (_ & Hk & _). intros x Hx. apply Hk, Hs.
    unfold read_bytes in Hx. apply in_map_iff in Hx.
    destruct Hx as (b & <- & Hb). eauto. }
  pose proof V as (NDk & PF & Hl & Hlen).
  assert (Hne : forall k v, In (k, v) T -> v <> []).
  { intros k v H E. apply Hlen in H. subst v. simpl in H. lia. }
  destruct (encode_scan T NDk (prefix_free_codes_nodup T NDk PF) PF Hne
              (read_bytes file) Hin) as (payload & Henc & _).
  exists T, payload. eexists. split; [exact V|].
  split; [exact Hin|]. split; [exact Henc|].
  apply (Encode_steps self file T payload _ HT Henc).
  apply make_header_ok; [exact Hl|]. intros k v H. apply Hlen in H. lia.
Qed.

(** X12. Cutting the last byte off a compressed stream is not detected.
    For every file of at least 8 bytes with at least two different byte
    values, [Decode] of what [Encode] returned, without its last 8 bits,
    raises nothing and returns the binary form of the first [j] bytes of
    the file, for some [j] below the length of the file. *)
Theorem Decode_truncated_Encode (self : HuffmanCode) (file : list byte) :
  codesnames self = codesnames init ->
  two_symbols file ->
  8 <= length file ->
  exists enc self' j,
    Encode self file = Ok (enc, self') /\
    j < length file /\
    Decode (firstn (length enc - 8) enc)
    = Ok (concat (read_bytes (firstn j file))).
Proof.
  intros Hself H2 H8.
  destruct (Encode_structure self file Hself H2)
    as (T & payload & self' & V & Hin & Henc & HE).
  destruct V as (NDk & PF & Hl & Hlen).
  pose proof (prefix_free_codes_nodup T NDk PF) as NDc.
  assert (Hne : forall k v, In (k, v) T -> v <> []).
  { intros k v H E. apply Hlen in H. subst v. simpl in H. lia. }
  pose proof (encode_symbols_length T Hne _ _ Henc) as Hlp.
  unfold read_bytes in Hlp at 1. rewrite length_map in Hlp.
  set (header := bits8 (Z.of_nat (length T) - 1) ++ flat_map entry_bits T) in *.
  set (pad := pad_of (length (header ++ payload))).
  pose proof (pad_of_range (length (header ++ payload))) as Hpad.
  fold pad in Hpad.
  set (lp := length payload) in *.
  set (body := firstn (lp - 8) payload).
  set (tail := firstn pad (skipn (lp - 8) payload)).
  set (rem := skipn pad (skipn (lp - 8) payload)).
  assert (Hpay : payload = body ++ tail ++ rem).
  { unfold body, tail, rem. now rewrite !firstn_skipn. }
  assert (Hbody : length body = lp - 8)
    by (unfold body; rewrite length_firstn; fold lp; lia).
  assert (Htail : length tail = pad)
    by (unfold tail; rewrite length_firstn, length_skipn; fold lp; lia).
  assert (Hrem : length rem = 8 - pad)
    by (unfold rem; rewrite !length_skipn; fold lp; lia).
  assert (Hcut : firstn (length (framed header payload) - 8)
                   (framed header payload)
                 = bits8 (Z.of_nat pad) ++ header ++ body ++ tail).
  { rewrite framed_length. unfold framed. fold pad.
    assert (E : header ++ payload = (header ++ body ++ tail) ++ rem)
      by (rewrite Hpay at 1; now rewrite <- !app_assoc).
    rewrite E.
    replace (bits8 (Z.of_nat pad) ++ ((header ++ body ++ tail) ++ rem)
             ++ str_repeat "0"%char pad)
      with ((bits8 (Z.of_nat pad) ++ header ++ body ++ tail)
            ++ rem ++ str_repeat "0"%char pad)
      by (now rewrite <- !app_assoc).
    apply firstn_exact.
    rewrite !length_app, bits8_length, Hbody, Htail, Hrem. lia. }
  destruct (scan_prefix T NDk PF Hne (read_bytes file) payload (lp - 8) []
              Hin Henc) as (j & buf & Hscan & Hj & Hjl).
  unfold read_bytes in Hj at 1. rewrite length_map in Hj.
  assert (Hjlt : j < length file).
  { unfold read_bytes in Hjl at 1. rewrite length_map in Hjl.
    apply Hjl. fold lp. lia. }
  exists (framed header payload), self', j.
  split; [exact HE|]. split; [exact Hjlt|].
  rewrite Hcut. unfold Decode, header.
  rewrite Decode_scan_stream;
    [|exact Hl | intros k v H; apply Hlen in H; lia | exact NDc | lia
     |exact Htail].
  cbn [bind]. unfold scan_bits. fold body in Hscan.
  match goal with
  | |- Ok (snd ?X) = _ =>
      assert (Hx : X = (buf, [] ++ concat (firstn j (read_bytes file))))
        by exact Hscan; rewrite Hx
  end.
  cbn [snd app]. unfold read_bytes. now rewrite firstn_map.
Qed.

Lemma Decode_truncated_Encode_witness :
  exists enc self' j,
    Encode init abracadabra = Ok (enc, self') /\
    j < length abracadabra /\
    Decode (firstn (length enc - 8) enc)
    = Ok (concat (read_bytes (firstn j abracadabra))).
Proof.
  apply Decode_truncated_Encode.
  - reflexivity.
  - exists x61, x62. simpl. repeat split; auto. discriminate.
  - simpl. lia.
Defined.
